(** * jedi: compiled-object projection and lazy values

    A shallow embedding of [jedi/inference/lazy_value.py] and
    [jedi/inference/compiled/value.py], and the properties of the
    specification that were checked against it.

    Conventions of the embedding:
    - a Python [str] is a [list ascii]; an [ascii] stands for a code point
      below 256, so the whitespace class of [str.strip] and [str.split] is the
      one [str.isspace] has on that range;
    - a Python exception is a constructor of [Exn], and code that may raise
      returns a [Result];
    - stateful code is a function of the state it reads and writes
      ([M St A]), with the state passed explicitly. *)

From Stdlib Require Import ZArith List String Ascii Lia Bool.
From stdpp Require Import base option list gmap sets strings.

Set Warnings "-register-all".

(** ** Exceptions and results *)

Inductive Exn : Type :=
| AttributeError
| ValueError
| UnboundLocalError
| IndexError
| KeyError
| OtherError (n : nat).

Inductive Result (A : Type) : Type :=
| Ok (a : A)
| Raise (e : Exn).

Arguments Ok {A} a.
Arguments Raise {A} e.

Definition rbind {A B} (r : Result A) (k : A -> Result B) : Result B :=
  match r with
  | Ok a => k a
  | Raise e => Raise e
  end.

Definition rmap {A B} (f : A -> B) (r : Result A) : Result B :=
  rbind r (fun a => Ok (f a)).

(** A computation over a state [St] that returns or raises. *)
Definition M (St A : Type) : Type := St -> Result A * St.

Definition ret {St A} (a : A) : M St A := fun s => (Ok a, s).

Definition raise {St A} (e : Exn) : M St A := fun s => (Raise e, s).

Definition bind {St A B} (m : M St A) (k : A -> M St B) : M St B :=
  fun s =>
    match m s with
    | (Ok a, s') => k a s'
    | (Raise e, s') => (Raise e, s')
    end.

Declare Scope py_scope.
Delimit Scope py_scope with py.

Notation "'let*' x ':=' m 'in' k" := (bind m (fun x => k))
  (at level 10, x pattern, m at level 100, k at level 200, only parsing)
  : py_scope.

(** [for x in xs: ys += f(x)] and generator comprehensions consumed in order. *)
Fixpoint mapM {St A B} (f : A -> M St B) (xs : list A) : M St (list B) :=
  match xs with
  | [] => ret []
  | x :: rest =>
      bind (f x) (fun y => bind (mapM f rest) (fun ys => ret (y :: ys)))
  end.

(** ** The documentation parser ([_parse_function_doc]) *)

Module Doc.

Definition str : Type := list ascii.

(** [str.isspace] on a code point below 256. *)
Definition is_space (c : ascii) : bool :=
  let n := nat_of_ascii c in
  (((9 <=? n) && (n <=? 13)) || ((28 <=? n) && (n <=? 32))
   || (n =? 133) || (n =? 160))%nat.

(** [s.index(c)]: the first position of [c], [ValueError] when absent. *)
Fixpoint index (c : ascii) (s : str) : Result nat :=
  match s with
  | [] => Raise ValueError
  | x :: t =>
      if Ascii.eqb x c then Ok 0
      else rbind (index c t) (fun i => Ok (S i))
  end.

(** [s[a:b]] for [0 <= a] and [0 <= b]. *)
Definition slice (s : str) (a b : nat) : str := take (b - a) (drop a s).

(** The loop [for i, s in enumerate(doc[start:])]: [count] is the local
    counter, [i] the enumeration index; the result is the value assigned to
    [end] at the [break], and [None] when the loop ends with [end] unbound. *)
Fixpoint scan_parens (start : nat) (count : Z) (i : nat) (rest : str)
  : option nat :=
  match rest with
  | [] => None
  | s :: rest' =>
      let count' :=
        if Ascii.eqb s "(" then (count + 1)%Z
        else if Ascii.eqb s ")" then (count - 1)%Z
        else count in
      if (count' =? 0)%Z then Some (start + i)
      else scan_parens start count' (S i) rest'
  end.

(** The body of the [try]: the pair [(end, param_str)], or the exception. *)
Definition find_params (doc : str) : Result (nat * str) :=
  rbind (index "(" doc) (fun start =>
    match scan_parens start 0 0 (drop start doc) with
    | Some end_ => Ok (end_, slice doc (start + 1) end_)
    | None => Raise UnboundLocalError
    end).

(** [s.split(sep)] for a one-character separator: empty fields are kept. *)
Fixpoint split_on (sep : ascii) (s : str) : list str :=
  match s with
  | [] => [[]]
  | c :: t =>
      match split_on sep t with
      | [] => [[c]]
      | f :: fs => if Ascii.eqb c sep then [] :: f :: fs else (c :: f) :: fs
      end
  end.

(** [sep.join(parts)]. *)
Fixpoint join (sep : str) (parts : list str) : str :=
  match parts with
  | [] => []
  | [p] => p
  | p :: ps => p ++ sep ++ join sep ps
  end.

Definition contains (c : ascii) (s : str) : bool := existsb (Ascii.eqb c) s.

Definition str_None : str := list_ascii_of_string "=None".

(** The callback [change_options], applied to group 1 of a match. *)
Definition change_options (group1 : str) : str :=
  let args := split_on "," group1 in
  join [","%char]
    (map (fun a =>
            match a with
            | [] => a
            | _ :: _ => if contains "=" a then a else a ++ str_None
            end) args).

Definition not_bracket (c : ascii) : bool :=
  negb (Ascii.eqb c "[" || Ascii.eqb c "]").

(** The longest prefix of characters satisfying [p], and what follows. *)
Fixpoint span (p : ascii -> bool) (s : str) : str * str :=
  match s with
  | [] => ([], [])
  | c :: t =>
      if p c then let (a, b) := span p t in (c :: a, b) else ([], s)
  end.

(** [\[([^\[\]]+)\]] anchored at the head of [s]: group 1 and the text after
    the match.  The class excludes the closing bracket, so the greedy run is
    the only one that can be followed by it. *)
Definition match_bracket (s : str) : option (str * str) :=
  match s with
  | c :: t =>
      if Ascii.eqb c "[" then
        match span not_bracket t with
        | ((_ :: _) as g, c' :: r) =>
            if Ascii.eqb c' "]" then Some (g, r) else None
        | _ => None
        end
      else None
  | [] => None
  end.

(** [ ?\[([^\[\]]+)\]] anchored at the head of [s]: the optional space is
    tried first, then the match without it. *)
Definition match_optional (s : str) : option (str * str) :=
  match s with
  | c :: t =>
      if Ascii.eqb c " " then
        match match_bracket t with
        | Some m => Some m
        | None => match_bracket s
        end
      else match_bracket s
  | [] => None
  end.

(** [re.subn(r' ?\[([^\[\]]+)\]', change_options, s)]: matches are taken
    leftmost first and do not overlap.  [fuel] bounds the number of positions
    visited; [S (length s)] is enough ([subn_optional_fuel]). *)
Fixpoint subn_optional_from (fuel : nat) (s : str) : str * nat :=
  match fuel with
  | 0 => (s, 0)
  | S fuel' =>
      match match_optional s with
      | Some (g, rest) =>
          let (out, n) := subn_optional_from fuel' rest in
          (change_options g ++ out, S n)
      | None =>
          match s with
          | [] => ([], 0)
          | c :: t =>
              let (out, n) := subn_optional_from fuel' t in (c :: out, n)
          end
      end
  end.

Definition subn_optional (s : str) : str * nat :=
  subn_optional_from (S (length s)) s.

Definition count_open (s : str) : nat :=
  length (List.filter (fun c => Ascii.eqb c "[") s).

(** The loop [while True: param_str, changes = re.subn(...)], left when
    [changes == 0].  Every change removes an opening bracket, so
    [S (count_open s)] rounds are enough ([strip_optionals_fixed]). *)
Fixpoint strip_optionals_from (fuel : nat) (param_str : str) : str :=
  match fuel with
  | 0 => param_str
  | S fuel' =>
      let (param_str', changes) := subn_optional param_str in
      if changes =? 0 then param_str'
      else strip_optionals_from fuel' param_str'
  end.

Definition strip_optionals (param_str : str) : str :=
  strip_optionals_from (S (count_open param_str)) param_str.

(** [s.replace('-', '_')]. *)
Definition replace_hyphens (s : str) : str :=
  map (fun c => if Ascii.eqb c "-" then "_"%char else c) s.

Definition arrow_tail (c : ascii) : bool :=
  Ascii.eqb c ">" || Ascii.eqb c "-".

(** [-[>-]* ] anchored at the head of [s]: the number of characters matched.
    The space is outside the class, so only the greedy run can precede it. *)
Definition match_arrow (s : str) : option nat :=
  match s with
  | c :: t =>
      if Ascii.eqb c "-" then
        match span arrow_tail t with
        | (run, c' :: _) =>
            if Ascii.eqb c' " " then Some (S (S (length run))) else None
        | _ => None
        end
      else None
  | [] => None
  end.

(** [re.search(u'-[>-]* ', s)]: [r.end()] of the leftmost match. *)
Fixpoint search_arrow_end (s : str) : option nat :=
  match match_arrow s with
  | Some n => Some n
  | None =>
      match s with
      | [] => None
      | _ :: t => option_map S (search_arrow_end t)
      end
  end.

Definition newline : ascii := ascii_of_nat 10.

(** [(,\n|[^\n-])+] from the head of [s], without the requirement of one
    iteration: the alternatives are tried in order at every step. *)
Fixpoint match_ret_run (s : str) : str :=
  match s with
  | [] => []
  | c :: t =>
      let single :=
        if negb (Ascii.eqb c newline || Ascii.eqb c "-")
        then c :: match_ret_run t else [] in
      match t with
      | c2 :: t2 =>
          if Ascii.eqb c "," && Ascii.eqb c2 newline
          then c :: c2 :: match_ret_run t2
          else single
      | [] => single
      end
  end.

(** [pattern.match(doc, index).group(0)]: [pattern.match] is [None] when not
    even one iteration matches, and [None.group] raises [AttributeError]. *)
Definition match_ret (doc : str) (index : nat) : Result str :=
  match match_ret_run (drop index doc) with
  | [] => Raise AttributeError
  | (_ :: _) as g => Ok g
  end.

(** [s.strip()]. *)
Definition lstrip (s : str) : str := snd (span is_space s).

Definition strip (s : str) : str := rev (lstrip (rev (lstrip s))).

(** [s.split()]: the maximal runs of characters that are not whitespace. *)
Fixpoint split_ws_from (cur : str) (s : str) : list str :=
  match s with
  | [] => match cur with [] => [] | _ => [rev cur] end
  | c :: t =>
      if is_space c then
        match cur with
        | [] => split_ws_from [] t
        | _ => rev cur :: split_ws_from [] t
        end
      else split_ws_from (c :: cur) t
  end.

Definition split_ws (s : str) : list str := split_ws_from [] s.

(** The pattern of the [re.sub] call ([n] or [N], then [ew] and a space, then
    group 1: any run of characters other than a newline), anchored at the head
    of [s]: group 1, which runs to the end of the line, and the text after the
    match. *)
Definition match_new (s : str) : option (str * str) :=
  match s with
  | n :: e :: w :: sp :: t =>
      if (Ascii.eqb n "n" || Ascii.eqb n "N") && Ascii.eqb e "e"
         && Ascii.eqb w "w" && Ascii.eqb sp " "
      then Some (span (fun c => negb (Ascii.eqb c newline)) t)
      else None
  | _ => None
  end.

(** The [re.sub] call, which rewrites every match to group 1 followed by a
    pair of parentheses; [fuel] as in [subn_optional_from]. *)
Fixpoint sub_new_from (fuel : nat) (s : str) : str :=
  match fuel with
  | 0 => s
  | S fuel' =>
      match match_new s with
      | Some (g, rest) => g ++ ["("%char; ")"%char] ++ sub_new_from fuel' rest
      | None =>
          match s with
          | [] => []
          | c :: t => c :: sub_new_from fuel' t
          end
      end
  end.

Definition sub_new (s : str) : str := sub_new_from (S (length s)) s.

(** The table [docstr_defaults]. *)
Definition docstr_defaults : list (string * string) :=
  [ ("floating point number", "float");
    ("character", "str");
    ("integer", "int");
    ("dictionary", "dict");
    ("string", "str") ]%string.

(** [docstr_defaults.get(ret_str, ret_str)]. *)
Definition docstr_defaults_get (ret_str : str) : str :=
  match
    find (fun kv => String.eqb (fst kv) (string_of_list_ascii ret_str))
         docstr_defaults
  with
  | Some kv => list_ascii_of_string (snd kv)
  | None => ret_str
  end.

(** [_parse_function_doc(doc)] on character lists. *)
Definition parse_function_doc (doc : str) : Result (str * str) :=
  rbind
    (match find_params doc with
     | Ok (end_, param_str) => Ok (end_, strip_optionals param_str)
     | Raise ValueError | Raise UnboundLocalError => Ok (0, [])
     | Raise e => Raise e
     end)
    (fun '(end_, param_str) =>
       let param_str := replace_hyphens param_str in
       match search_arrow_end (slice doc end_ (end_ + 7)) with
       | None => Ok (param_str, [])
       | Some r_end =>
           let index := end_ + r_end in
           rbind (match_ret doc index) (fun g =>
             let ret_str := strip g in
             let ret_str := sub_new ret_str in
             Ok (param_str, docstr_defaults_get ret_str))
       end).

(** [_parse_function_doc(doc)]. *)
Definition _parse_function_doc (doc : string) : Result (string * string) :=
  rbind (parse_function_doc (list_ascii_of_string doc))
        (fun '(p, r) => Ok (string_of_list_ascii p, string_of_list_ascii r)).

End Doc.

(** ** Values and value sets *)

(** The identity of an access handle: a handle is a token for one object of
    the introspected runtime and is compared by identity. *)
Definition Handle : Type := nat.

(** [AccessPath.accesses]: the ordered (name, handle) pairs. *)
Definition AccessPath : Type := list (string * Handle).

Definition ObjId : Type := nat.

(** The arguments object handed to a call; it is only passed along. *)
Definition CallArguments : Type := nat.

(** [CompiledObject(infer_state, access_handle, parent_value)].  The object is
    never mutated after construction, so a reference to it is its identity
    [obj_id] together with its two attributes; [parent_value] is the identity
    of the parent object ([None] for the root). *)
Record CompiledObject : Type := {
  obj_id : ObjId;
  access_handle : Handle;
  parent_value : option ObjId
}.

(** The values these sources meet: a compiled object, the instance
    [CompiledInstance(infer_state, parent, class, arguments)] that the call of
    a class makes, and a value of any other kind, which is only passed
    along. *)
Inductive Value : Type :=
| VCompiledObject (o : CompiledObject)
| VCompiledInstance (parent : option ObjId) (class_value : CompiledObject)
                    (arguments : CallArguments)
| VOther (n : nat).

#[global] Instance CompiledObject_eq_dec : EqDecision CompiledObject.
Proof. solve_decision. Defined.

#[global] Instance CompiledObject_countable : Countable CompiledObject.
Proof.
  refine (inj_countable'
            (fun o => (obj_id o, access_handle o, parent_value o))
            (fun t => {| obj_id := t.1.1; access_handle := t.1.2;
                         parent_value := t.2 |}) _).
  by intros [].
Defined.

#[global] Instance Value_eq_dec : EqDecision Value.
Proof. solve_decision. Defined.

#[global] Instance Value_countable : Countable Value.
Proof.
  refine (inj_countable'
            (fun v => match v with
                      | VCompiledObject o => inl o
                      | VCompiledInstance p c a => inr (inl (p, c, a))
                      | VOther n => inr (inr n)
                      end)
            (fun x => match x with
                      | inl o => VCompiledObject o
                      | inr (inl (p, c, a)) => VCompiledInstance p c a
                      | inr (inr n) => VOther n
                      end) _).
  by intros [].
Defined.

(** Modelled from the spec: [ValueSet] and [NO_VALUES] of
    [jedi/inference/base_value.py], which is not among the sources.  A value
    set is a finite set of values: [ValueSet(xs)] is [list_to_set xs],
    [ValueSet.from_sets(ss)] is the union of [ss], and [NO_VALUES] is the
    empty set. *)
Definition ValueSet : Type := gset Value.

Definition NO_VALUES : ValueSet := ∅.

Definition from_sets (sets : list ValueSet) : ValueSet := ⋃ sets.

(** ** Lazy values ([lazy_value.py]) *)

Module Lazy.

(** The owning context of a tree lazy value, a syntax-tree node, and the
    identity of a dict object. *)
Definition Context : Type := nat.
Definition Node : Type := nat.
Definition Loc : Type := nat.

(** A [predefined_names] table: flow scope to the names it predefines. *)
Definition Table : Type := gmap Node (gmap string (gset Value)).

(** The mutable objects the lazy values work on: the dict each context's
    [predefined_names] attribute is bound to, and the contents of the dicts.
    [next_loc] is the identity the next new dict receives. *)
Record Heap : Type := {
  predefined_names : Context -> Loc;
  dict_contents : Loc -> Table;
  next_loc : Loc
}.

Definition getattr_predefined_names (obj : Context) : M Heap Loc :=
  fun h => (Ok (predefined_names h obj), h).

Definition setattr_predefined_names (obj : Context) (new_value : Loc)
  : M Heap unit :=
  fun h =>
    (Ok tt,
     {| predefined_names :=
          fun c => if decide (c = obj) then new_value else predefined_names h c;
        dict_contents := dict_contents h;
        next_loc := next_loc h |}).

(** [dict(d)]: a new dict with the contents of [d]. *)
Definition dict_copy (d : Loc) : M Heap Loc :=
  fun h =>
    (Ok (next_loc h),
     {| predefined_names := predefined_names h;
        dict_contents :=
          fun l => if decide (l = next_loc h) then dict_contents h d
                   else dict_contents h l;
        next_loc := S (next_loc h) |}).

(** [try: body finally: cleanup]. *)
Definition try_finally {St A} (body : M St A) (cleanup : M St unit) : M St A :=
  fun s =>
    match body s with
    | (r, s') =>
        match cleanup s' with
        | (Ok _, s'') => (r, s'')
        | (Raise e, s'') => (Raise e, s'')
        end
    end.

(** Modelled from the spec: the context manager [monkeypatch] of
    [jedi/common/utils.py], which is not among the sources.  It is the scoped
    reassignment the spec describes: the attribute is read, rebound to the
    new value for the duration of the body, and rebound to what was read on
    every exit path of the body. *)
Definition monkeypatch {A} (obj : Context) (new_value : Loc)
    (body : M Heap A) : M Heap A :=
  bind (getattr_predefined_names obj) (fun old_value =>
    try_finally
      (bind (setattr_predefined_names obj new_value) (fun _ => body))
      (setattr_predefined_names obj old_value)).

Inductive LazyValue : Type :=
| LazyKnownValue (data : Value)
| LazyKnownValues (data : ValueSet)
| LazyUnknownValue
| LazyTreeValue (value : Context) (data : Node) (_predefined_names : Loc)
| MergedLazyValues (data : list LazyValue).

(** [LazyTreeValue.__init__]. *)
Definition new_LazyTreeValue (value : Context) (node : Node)
  : M Heap LazyValue :=
  bind (getattr_predefined_names value) (fun d =>
    bind (dict_copy d) (fun snapshot =>
      ret (LazyTreeValue value node snapshot))).

Section Infer.

(** The context's node-level inference, [value.infer_node(node)]: external to
    these sources; it may read and write the heap and may raise. *)
Variable infer_node : Context -> Node -> M Heap ValueSet.

(** The [infer] method of each class. *)
Fixpoint infer (self : LazyValue) : M Heap ValueSet :=
  match self with
  | LazyKnownValue data => ret (list_to_set [data])
  | LazyKnownValues data => ret data
  | LazyUnknownValue => ret NO_VALUES
  | LazyTreeValue value data _predefined_names =>
      monkeypatch value _predefined_names (infer_node value data)
  | MergedLazyValues data =>
      bind
        ((fix infer_each (ls : list LazyValue) : M Heap (list ValueSet) :=
            match ls with
            | [] => ret []
            | l :: rest =>
                bind (infer l) (fun s =>
                  bind (infer_each rest) (fun ss => ret (s :: ss)))
            end) data)
        (fun sets => ret (from_sets sets))
  end.

End Infer.

(** [get_merged_lazy_value]; indexing the empty list raises [IndexError]. *)
Definition get_merged_lazy_value (lazy_values : list LazyValue)
  : Result LazyValue :=
  if (1 <? length lazy_values)%nat then Ok (MergedLazyValues lazy_values)
  else match lazy_values with
       | l :: _ => Ok l
       | [] => Raise IndexError
       end.

End Lazy.

(** ** The compiled-object projection ([compiled/value.py]) *)

Module Compiled.

(** A query sent to an access handle. *)
Inductive Query : Type :=
| QGetReturnAnnotation (h : Handle)
| QGetattrPaths (h : Handle) (name : string)
| QIsClass (h : Handle)
| QGetApiType (h : Handle)
| QPyDoc (h : Handle)
| QPyMroAccesses (h : Handle)
| QIsAllowedGetattr (h : Handle) (name : string)
| QDir (h : Handle)
| QGetDirInfos (h : Handle).

(** The introspected runtime: what each access handle answers.  The handle
    transport is outside these sources; [getattr_paths] answers [None] where
    the handle raises [AttributeError]. *)
Record Runtime : Type := {
  get_return_annotation : Handle -> option AccessPath;
  getattr_paths : Handle -> string -> option (list AccessPath);
  is_class : Handle -> bool;
  get_api_type : Handle -> string;
  py__doc__ : Handle -> option string;
  py__mro__accesses : Handle -> list AccessPath;
  is_allowed_getattr : Handle -> string -> bool * bool;
  dir : Handle -> list string;
  get_dir_infos : Handle -> bool * gmap string (bool * bool)
}.

(** The inference state: the allocation counter of the projected objects, the
    memo table of the cached constructor, the memoised parsed docs, the
    setting [allow_descriptor_getattr], the access handle of
    [builtins_module], and the history of the queries sent to handles. *)
Record State : Type := {
  next_id : ObjId;
  memoize_cache : gmap (Handle * option ObjId) CompiledObject;
  doc_memo : gmap ObjId (string * string);
  allow_descriptor_getattr : bool;
  builtins_module : Handle;
  queries : list Query
}.

Definition new_infer_state (allow : bool) (builtins : Handle) : State :=
  {| next_id := 0; memoize_cache := ∅; doc_memo := ∅;
     allow_descriptor_getattr := allow; builtins_module := builtins;
     queries := [] |}.

Definition log (q : Query) (st : State) : State :=
  {| next_id := next_id st; memoize_cache := memoize_cache st;
     doc_memo := doc_memo st;
     allow_descriptor_getattr := allow_descriptor_getattr st;
     builtins_module := builtins_module st;
     queries := queries st ++ [q] |}.

(** A query that cannot fail. *)
Definition ask {A} (q : Query) (answer : A) : M State A :=
  fun st => (Ok answer, log q st).

(** [access_handle.getattr_paths(name)]. *)
Definition ask_getattr_paths (rt : Runtime) (h : Handle) (name : string)
  : M State (list AccessPath) :=
  fun st =>
    match getattr_paths rt h name with
    | Some paths => (Ok paths, log (QGetattrPaths h name) st)
    | None => (Raise AttributeError, log (QGetattrPaths h name) st)
    end.

(** *** Identity-keyed creation *)

(** The constructor [CompiledObject(infer_state, access_handle, parent_value)]:
    a new object, with an identity no earlier object has. *)
Definition new_CompiledObject (access : Handle)
    (parent : option CompiledObject) (st : State) : CompiledObject * State :=
  ({| obj_id := next_id st; access_handle := access;
      parent_value := obj_id <$> parent |},
   {| next_id := S (next_id st); memoize_cache := memoize_cache st;
      doc_memo := doc_memo st;
      allow_descriptor_getattr := allow_descriptor_getattr st;
      builtins_module := builtins_module st;
      queries := queries st |}).

Definition memoize (key : Handle * option ObjId) (rv : CompiledObject)
    (st : State) : State :=
  {| next_id := next_id st;
     memoize_cache := <[key := rv]> (memoize_cache st);
     doc_memo := doc_memo st;
     allow_descriptor_getattr := allow_descriptor_getattr st;
     builtins_module := builtins_module st;
     queries := queries st |}.

(** Modelled from the spec: the decorator [infer_state_function_cache] of
    [jedi/inference/cache.py], which is not among the sources.  It is the
    cache of the spec: one memo table per inference state, keyed by the
    handle and the parent, both compared by identity; an entry is added on
    the first call with a key and is never evicted. *)
Definition infer_state_function_cache
    (function : Handle -> option CompiledObject -> State ->
                CompiledObject * State)
    (access : Handle) (parent : option CompiledObject) (st : State)
  : CompiledObject * State :=
  let key := (access, obj_id <$> parent) in
  match memoize_cache st !! key with
  | Some rv => (rv, st)
  | None =>
      let (rv, st') := function access parent st in
      (rv, memoize key rv st')
  end.

(** [create_cached_compiled_object]; [_normalize_create_args] only fixes the
    shape of the argument list. *)
Definition create_cached_compiled_object
  : Handle -> option CompiledObject -> State -> CompiledObject * State :=
  infer_state_function_cache new_CompiledObject.

(** The loop of [create_from_access_path], entered with [parent_value]. *)
Fixpoint create_from (accesses : AccessPath)
    (parent_value : option CompiledObject) (st : State)
  : option CompiledObject * State :=
  match accesses with
  | [] => (parent_value, st)
  | (name, access) :: rest =>
      let (o, st') := create_cached_compiled_object access parent_value st in
      create_from rest (Some o) st'
  end.

(** [create_from_access_path(infer_state, access_path)]; the result is [None]
    for a path without accesses. *)
Definition create_from_access_path (access_path : AccessPath) (st : State)
  : option CompiledObject * State :=
  create_from access_path None st.

(** Creation as a computation that never raises. *)
Definition lift {A} (f : State -> A * State) : M State A :=
  fun st => let (a, st') := f st in (Ok a, st').

(** Several paths created one after the other. *)
Fixpoint create_all (paths : list AccessPath) (st : State) : State :=
  match paths with
  | [] => st
  | p :: rest => create_all rest (snd (create_from_access_path p st))
  end.

(** *** Names *)

(** The name objects a filter returns.  [EmptyCompiledName] always has
    [infer_state.builtins_module] as its parent; [OtherName] stands for a name
    made by a filter of another kind of value. *)
Inductive Name : Type :=
| CompiledName (parent_value : CompiledObject) (string_name : string)
| EmptyCompiledName (string_name : string)
| OtherName (string_name : string).

Definition string_name (n : Name) : string :=
  match n with
  | CompiledName _ s => s
  | EmptyCompiledName s => s
  | OtherName s => s
  end.

(** [EmptyCompiledName.infer], for the name object with string name [name]. *)
Definition EmptyCompiledName_infer (name : string) : M State ValueSet :=
  ret NO_VALUES.

(** *** The collaborators of the inference engine *)

(** What these sources consume from the rest of the engine; each may read and
    write the inference state and may raise.  [filters_values v] is the list
    of [filter.values()] for the filters of [v.get_filters()]. *)
Record Engine : Type := {
  execute_annotation : CompiledObject -> M State ValueSet;
  Value_py__call__ : CompiledObject -> CallArguments -> M State ValueSet;
  builtin_from_name : string -> M State Value;
  execute : Value -> CallArguments -> M State ValueSet;
  infer_return_types : CompiledObject -> M State ValueSet;
  filters_values : Value -> M State (list (list Name))
}.

(** [force_unicode] on a text string. *)
Definition force_unicode (s : string) : string := s.

(** [s[n:]]. *)
Fixpoint string_drop (n : nat) (s : string) : string :=
  match n, s with
  | 0, _ => s
  | S n', String _ s' => string_drop n' s'
  | S _, EmptyString => EmptyString
  end.

Definition memoize_doc (o : ObjId) (result : string * string) (st : State)
  : State :=
  {| next_id := next_id st; memoize_cache := memoize_cache st;
     doc_memo := <[o := result]> (doc_memo st);
     allow_descriptor_getattr := allow_descriptor_getattr st;
     builtins_module := builtins_module st;
     queries := queries st |}.

(** Modelled from the spec: the decorator [underscore_memoization] of
    [jedi/cache.py], which is not among the sources.  The result of the first
    call that returns is kept on the object and returned by every later call;
    [doc_memo] holds it for the one method of these sources it decorates that
    sends a query. *)
Definition underscore_memoization
    (func : CompiledObject -> M State (string * string))
    (self : CompiledObject) : M State (string * string) :=
  fun st =>
    match doc_memo st !! obj_id self with
    | Some result => (Ok result, st)
    | None =>
        match func self st with
        | (Ok result, st') => (Ok result, memoize_doc (obj_id self) result st')
        | (Raise e, st') => (Raise e, st')
        end
    end.

(** [try: body except AttributeError: handler else: orelse]. *)
Definition try_except_AttributeError {A B} (body : M State A)
    (handler : M State B) (orelse : A -> M State B) : M State B :=
  fun st =>
    match body st with
    | (Ok a, st') => orelse a st'
    | (Raise AttributeError, st') => handler st'
    | (Raise e, st') => (Raise e, st')
    end.

Section Projection.

Variable rt : Runtime.
Variable eng : Engine.

Local Open Scope py_scope.

(** The method [CompiledObject._parse_function_doc]. *)
Definition _parse_function_doc : CompiledObject -> M State (string * string) :=
  underscore_memoization (fun self =>
    let* doc := ask (QPyDoc (access_handle self))
                    (py__doc__ rt (access_handle self)) in
    match doc with
    | None => ret (EmptyString, EmptyString)
    | Some doc => fun st => (Doc._parse_function_doc doc, st)
    end).

(** [x.execute_annotation()] on the result of a creation, which is [None]
    for a path without accesses. *)
Definition call_execute_annotation (x : option CompiledObject)
  : M State ValueSet :=
  match x with
  | Some o => execute_annotation eng o
  | None => raise AttributeError
  end.

(** One round of the loop of [_execute_function]: the values yielded for the
    token [name]. *)
Definition execute_builtin (params : CallArguments) (name : string)
  : M State (list Value) :=
  fun st =>
    try_except_AttributeError
      (ask_getattr_paths rt (builtins_module st) name)
      (ret [])
      (fun _ =>
         let* bltn_obj := builtin_from_name eng name in
         let* results := execute eng bltn_obj params in
         ret (elements results))
      st.

(** The words of [s.split()], as strings. *)
Definition tokens (s : string) : list string :=
  map string_of_list_ascii (Doc.split_ws (list_ascii_of_string s)).

(** The generator [_execute_function]: the values it yields, in order. *)
Definition _execute_function (self : CompiledObject) (params : CallArguments)
  : M State (list Value) :=
  let* api_type := ask (QGetApiType (access_handle self))
                       (get_api_type rt (access_handle self)) in
  if negb (String.eqb api_type "function") then ret []
  else
    let* parsed := _parse_function_doc self in
    let* yielded := mapM (execute_builtin params) (tokens (snd parsed)) in
    let* types := infer_return_types eng self in
    ret (concat yielded ++ elements types).

(** [CompiledObject.py__call__]. *)
Definition py__call__ (self : CompiledObject) (arguments : CallArguments)
  : M State ValueSet :=
  let* return_annotation :=
    ask (QGetReturnAnnotation (access_handle self))
        (get_return_annotation rt (access_handle self)) in
  match return_annotation with
  | Some annotation =>
      let* o := lift (create_from_access_path annotation) in
      call_execute_annotation o
  | None =>
      try_except_AttributeError
        (ask_getattr_paths rt (access_handle self) "__call__")
        (Value_py__call__ eng self arguments)
        (fun _ =>
           let* cls := ask (QIsClass (access_handle self))
                           (is_class rt (access_handle self)) in
           if cls then
             ret (list_to_set
                    [VCompiledInstance (parent_value self) self arguments])
           else
             let* yielded := _execute_function self arguments in
             ret (list_to_set yielded))
  end.

(** The descriptor [CheckAttribute]: [check_name] is the argument of the
    decorator, [func_name] the name of the decorated method. *)
Definition CheckAttribute {A} (check_name : option string)
    (func_name : string) (func : CompiledObject -> M State A)
    (instance : CompiledObject) : M State A :=
  let check_name :=
    match check_name with
    | Some n => n
    | None => force_unicode (string_drop 2 func_name)
    end in
  let* _ := ask_getattr_paths rt (access_handle instance) check_name in
  func instance.

(** [CompiledObject.py__mro__]: the tuple, whose members are objects or
    [None]. *)
Definition py__mro__ : CompiledObject -> M State (list (option CompiledObject)) :=
  CheckAttribute None "py__mro__" (fun self =>
    let* accesses := ask (QPyMroAccesses (access_handle self))
                         (py__mro__accesses rt (access_handle self)) in
    let* created := mapM (fun access => lift (create_from_access_path access))
                         accesses in
    ret (Some self :: created)).

(** *** The filter *)

Record CompiledObjectFilter : Type := {
  compiled_object : CompiledObject;
  is_instance : bool
}.

(** [_get_cached_name] and [_create_name].  A name object is given by its
    class and attributes; [memoize_method] makes no query and only decides
    which equal name object is returned. *)
Definition _get_cached_name (self : CompiledObjectFilter) (name : string)
    (is_empty : bool) : Name :=
  if is_empty then EmptyCompiledName name
  else CompiledName (compiled_object self) name.

Definition str_in (name : string) (names : list string) : bool :=
  existsb (String.eqb name) names.

(** [CompiledObjectFilter._get]; the two callbacks are the zero-argument
    functions the callers pass. *)
Definition _get (self : CompiledObjectFilter) (name : string)
    (allowed_getattr_callback : M State (bool * bool))
    (dir_callback : M State (list string))
    (check_has_attribute : bool) : M State (list Name) :=
  let* allowed := allowed_getattr_callback in
  let has_attribute := fst allowed in
  let is_descriptor := snd allowed in
  if check_has_attribute && negb has_attribute then ret []
  else
    let name := force_unicode name in
    fun st =>
      if (is_descriptor && negb (allow_descriptor_getattr st))
         || negb has_attribute
      then (Ok [_get_cached_name self name true], st)
      else if is_instance self then
        (let* names := dir_callback in
         if negb (str_in name names) then ret []
         else ret [_get_cached_name self name false]) st
      else (Ok [_get_cached_name self name false], st).

(** [CompiledObjectFilter.get]. *)
Definition get (self : CompiledObjectFilter) (name : string)
  : M State (list Name) :=
  let h := access_handle (compiled_object self) in
  _get self name
       (ask (QIsAllowedGetattr h name) (is_allowed_getattr rt h name))
       (ask (QDir h) (dir rt h))
       true.

(** The first loop of [values]: the names made from the keys of [dir_infos].
    The dict is a finite map; its keys are visited in the order of
    [map_to_list], not in the order of insertion. *)
Definition dir_names (self : CompiledObjectFilter)
    (dir_infos : gmap string (bool * bool)) : M State (list Name) :=
  let keys := map fst (map_to_list dir_infos) in
  let* found :=
    mapM (fun name =>
            _get self name
                 (match dir_infos !! name with
                  | Some info => ret info
                  | None => raise KeyError
                  end)
                 (ret keys)
                 false)
         keys in
  ret (concat found).

(** [CompiledObjectFilter.values]. *)
Definition values (self : CompiledObjectFilter) : M State (list Name) :=
  let h := access_handle (compiled_object self) in
  let* infos := ask (QGetDirInfos h) (get_dir_infos rt h) in
  let needs_type_completions := fst infos in
  let dir_infos := snd infos in
  let* names := dir_names self dir_infos in
  if negb (is_instance self) && needs_type_completions then
    let* type_value := builtin_from_name eng "type" in
    let* per_filter := filters_values eng type_value in
    ret (names ++ concat per_filter)
  else ret names.

End Projection.

End Compiled.

(** ** Notions of the specification *)

(** What one character does to the parenthesis depth. *)
Definition paren_step (d : Z) (c : ascii) : Z :=
  if Ascii.eqb c "(" then (d + 1)%Z
  else if Ascii.eqb c ")" then (d - 1)%Z
  else d.

(** The parenthesis depth at the end of [s]: opening minus closing. *)
Definition depth (s : Doc.str) : Z := fold_left paren_step s 0%Z.

(** A balanced parenthesis group is found in [doc]: some non-empty stretch of
    text that begins at the first opening parenthesis ends at depth zero. *)
Definition has_balanced_group (doc : Doc.str) : Prop :=
  exists start n,
    Doc.index "(" doc = Ok start /\ 0 < n <= length (drop start doc) /\
    depth (take n (drop start doc)) = 0%Z.

(** A lazy value without a tree lazy value in it. *)
Fixpoint tree_free (l : Lazy.LazyValue) : bool :=
  match l with
  | Lazy.LazyTreeValue _ _ _ => false
  | Lazy.MergedLazyValues data => forallb tree_free data
  | _ => true
  end.

(** Induction on lazy values, with the hypothesis for every member of a
    merge. *)
Fixpoint LazyValue_nested_ind (P : Lazy.LazyValue -> Prop)
    (HKnown : forall v, P (Lazy.LazyKnownValue v))
    (HKnowns : forall vs, P (Lazy.LazyKnownValues vs))
    (HUnknown : P Lazy.LazyUnknownValue)
    (HTree : forall value node snapshot,
        P (Lazy.LazyTreeValue value node snapshot))
    (HMerged : forall data, Forall P data -> P (Lazy.MergedLazyValues data))
    (l : Lazy.LazyValue) : P l :=
  match l with
  | Lazy.LazyKnownValue v => HKnown v
  | Lazy.LazyKnownValues vs => HKnowns vs
  | Lazy.LazyUnknownValue => HUnknown
  | Lazy.LazyTreeValue value node snapshot => HTree value node snapshot
  | Lazy.MergedLazyValues data =>
      HMerged data
        ((fix members (ls : list Lazy.LazyValue) : Forall P ls :=
            match ls with
            | [] => @List.Forall_nil _ P
            | x :: rest =>
                @List.Forall_cons _ P x rest
                  (LazyValue_nested_ind P HKnown HKnowns HUnknown HTree
                     HMerged x)
                  (members rest)
            end) data)
  end.

(** The invariant of the creation cache: every cached object has an identity
    below the allocation counter, and no two entries hold objects of one
    identity. *)
Definition cache_wf (st : Compiled.State) : Prop :=
  (forall k o, Compiled.memoize_cache st !! k = Some o ->
               obj_id o < Compiled.next_id st) /\
  (forall k k' o o',
      Compiled.memoize_cache st !! k = Some o ->
      Compiled.memoize_cache st !! k' = Some o' ->
      obj_id o = obj_id o' -> k = k').

(** The object a path leads to through the entries a cache already has. *)
Fixpoint resolve (cache : gmap (Handle * option ObjId) CompiledObject)
    (accesses : AccessPath) (parent : option CompiledObject)
  : option (option CompiledObject) :=
  match accesses with
  | [] => Some parent
  | (_, access) :: rest =>
      match cache !! (access, obj_id <$> parent) with
      | Some o => resolve cache rest (Some o)
      | None => None
      end
  end.

(** The union of claim C7, in the words of the specification.  [builtin_hit]
    looks a token up among the names of the built-in module and executes the
    hit with the arguments; a miss contributes nothing. *)
Definition builtin_hit (rt : Compiled.Runtime) (eng : Compiled.Engine)
    (params : CallArguments) (token : string) : M Compiled.State ValueSet :=
  fun st =>
    Compiled.try_except_AttributeError
      (Compiled.ask_getattr_paths rt (Compiled.builtins_module st) token)
      (ret ∅)
      (fun _ =>
         bind (Compiled.builtin_from_name eng token) (fun bltn_obj =>
           Compiled.execute eng bltn_obj params))
      st.

(** Part (a): the values of the hits among the tokens of the return string of
    the parsed doc. *)
Definition docstring_values (rt : Compiled.Runtime) (eng : Compiled.Engine)
    (self : CompiledObject) (params : CallArguments)
  : M Compiled.State ValueSet :=
  bind (Compiled._parse_function_doc rt self) (fun parsed =>
    bind (mapM (builtin_hit rt eng params) (Compiled.tokens (snd parsed)))
         (fun sets => ret (⋃ sets))).

(** The union of part (a) and part (b), the values of the doc-based
    inferencer. *)
Definition call_union (rt : Compiled.Runtime) (eng : Compiled.Engine)
    (self : CompiledObject) (params : CallArguments)
  : M Compiled.State ValueSet :=
  bind (docstring_values rt eng self params) (fun a =>
    bind (Compiled.infer_return_types eng self) (fun b => ret (a ∪ b))).

(** The state after the queries [qs], sent in order. *)
Definition log_all (qs : list Compiled.Query) (st : Compiled.State)
  : Compiled.State :=
  fold_left (fun s q => Compiled.log q s) qs st.

(** ** A small runtime, for the examples

    Handle 0 is the built-in module, 1 to 3 are the classes [int], [str] and
    [type], 7 is [object]; 4 is a function annotated to return [str] whose
    doc says [int]; 5 is a callable instance and 6 a function, both without
    annotation and with a doc that says [int]. *)
Module Sample.

Import Compiled.

Local Open Scope string_scope.

Definition builtin_path (name : string) (h : Handle) : AccessPath :=
  [("builtins", 0); (name, h)].

Definition rt : Runtime := {|
  get_return_annotation h :=
    if (h =? 4)%nat then Some (builtin_path "str" 2) else None;
  getattr_paths h name :=
    if (h =? 0)%nat then
      if String.eqb name "int" then Some [builtin_path "int" 1]
      else if String.eqb name "str" then Some [builtin_path "str" 2]
      else if String.eqb name "type" then Some [builtin_path "type" 3]
      else None
    else if String.eqb name "__call__" then Some []
    else if String.eqb name "__mro__" && ((h =? 1)%nat || (h =? 2)%nat || (h =? 3)%nat)
    then Some []
    else None;
  is_class h := (h =? 1)%nat || (h =? 2)%nat || (h =? 3)%nat || (h =? 7)%nat;
  get_api_type h :=
    if (h =? 0)%nat then "module"
    else if (h =? 4)%nat || (h =? 6)%nat then "function"
    else if (h =? 5)%nat then "instance"
    else "class";
  py__doc__ h :=
    if (h =? 4)%nat then Some "f() -> int"
    else if (h =? 5)%nat then Some "g() -> int"
    else if (h =? 6)%nat then Some "k() -> int"
    else None;
  py__mro__accesses h :=
    if (h =? 1)%nat || (h =? 2)%nat || (h =? 3)%nat then [builtin_path "object" 7]
    else [];
  is_allowed_getattr h name :=
    if String.eqb name "real" then (true, true)
    else if String.eqb name "__doc__" then (true, false)
    else (false, false);
  dir h := ["__doc__"; "real"];
  get_dir_infos h :=
    if (h =? 1)%nat then
      (true, {[ "__doc__" := (true, false); "real" := (true, true) ]})
    else if (h =? 3)%nat then
      (false, {[ "__doc__" := (true, false); "mro" := (true, false) ]})
    else (false, ∅)
|}.

(** An engine in which executing a class, or an annotation that is a class,
    gives an instance of it, and a built-in is found through the built-in
    module. *)
Definition eng : Engine := {|
  execute_annotation o := ret {[ VCompiledInstance None o 0 ]};
  Value_py__call__ _ _ := ret ∅;
  builtin_from_name name :=
    match getattr_paths rt 0 name with
    | Some [path] =>
        bind (lift (create_from_access_path path)) (fun o =>
          match o with
          | Some o => ret (VCompiledObject o)
          | None => raise AttributeError
          end)
    | _ => raise AttributeError
    end;
  execute v arguments :=
    match v with
    | VCompiledObject o => ret {[ VCompiledInstance None o arguments ]}
    | _ => ret ∅
    end;
  infer_return_types _ := ret ∅;
  filters_values v :=
    match v with
    | VCompiledObject o =>
        bind (dir_names {| compiled_object := o; is_instance := false |}
                        (snd (get_dir_infos rt (access_handle o))))
             (fun names => ret [names])
    | _ => ret []
    end
|}.

Definition st0 : State := new_infer_state false 0.

(** The object of a handle as [create_from_access_path] makes it in [st0],
    and the state in which it then exists. *)
Definition self_of (h : Handle) : CompiledObject :=
  {| obj_id := 1; access_handle := h; parent_value := Some 0 |}.

Definition st_of (h : Handle) : State :=
  snd (create_from_access_path (builtin_path "x" h) st0).

End Sample.

(** ** Further code of [compiled/value.py] *)

Module Object.

Import Compiled.

(** The descriptor of one parameter in the answer of
    [get_signature_params]: the fields the sources read. *)
Record SignatureParam : Type := {
  name : string;
  has_default : bool;
  default_path : AccessPath;
  default_string : string;
  has_annotation : bool;
  annotation : AccessPath;
  annotation_string : string;
  kind_name : string
}.

(** Further answers of the access handles.  [access_get_signature_params]
    answers [None] where the handle raises [ValueError]; and
    [access_getattr_default] is [getattr_paths(name, default=None)], which
    does not raise and answers the accesses of the steps to the attribute. *)
Record Answers : Type := {
  access_get_signature_params : Handle -> option (list SignatureParam);
  access_ismethoddescriptor : Handle -> bool;
  access_py__name__ : Handle -> option string;
  access_py__class__ : Handle -> AccessPath;
  access_py__bases__ : Handle -> list AccessPath;
  access_getattr_default : Handle -> string -> list Handle
}.

(** The two classes of parameter names; [parent_value] is the one of the
    compiled object. *)
Inductive ParamName : Type :=
| SignatureParamName (parent_value : option ObjId)
                     (_signature_param : SignatureParam)
| UnresolvableParamName (parent_value : option ObjId) (string_name : string)
                        (_default : string).

(** The attribute [string_name] of a parameter name. *)
Definition param_string_name (p : ParamName) : string :=
  match p with
  | SignatureParamName _ sp => name sp
  | UnresolvableParamName _ s _ => s
  end.

(** [UnresolvableParamName.to_string]. *)
Definition UnresolvableParamName_to_string (string_name _default : string)
  : string :=
  match _default with
  | EmptyString => string_name
  | _ => (string_name ++ "=" ++ _default)%string
  end.

(** [UnresolvableParamName.infer]. *)
Definition UnresolvableParamName_infer : M State ValueSet := ret NO_VALUES.

(** [s.partition(sep)] for a one-character separator: the text before the
    first separator, the separator when there is one, and the text after. *)
Fixpoint partition (sep : ascii) (s : Doc.str) : Doc.str * Doc.str * Doc.str :=
  match s with
  | [] => ([], [], [])
  | c :: t =>
      if Ascii.eqb c sep then ([], [sep], t)
      else let '(a, m, b) := partition sep t in (c :: a, m, b)
  end.

(** The body of the loop [for p in tokens] of [get_param_names]. *)
Definition unresolvable_of_token (self : CompiledObject) (p : Doc.str)
  : ParamName :=
  let '(name, _, default) := partition "=" (Doc.strip p) in
  UnresolvableParamName (parent_value self)
                        (string_of_list_ascii name)
                        (string_of_list_ascii default).

Section Methods.

Variable rt : Runtime.
Variable an : Answers.

Local Open Scope py_scope.

(** The tokens of the [except ValueError] branch of [get_param_names]. *)
Definition doc_tokens (self : CompiledObject) (params_str : string)
  : list Doc.str :=
  let tokens :=
    match params_str with
    | EmptyString => []
    | _ => Doc.split_on "," (list_ascii_of_string params_str)
    end in
  if access_ismethoddescriptor an (access_handle self)
  then list_ascii_of_string "self" :: tokens
  else tokens.

(** [CompiledObject.get_param_names], with the list [to_list] makes of what
    the generator yields. *)
Definition get_param_names (self : CompiledObject) : M State (list ParamName) :=
  match access_get_signature_params an (access_handle self) with
  | None =>
      let* parsed := _parse_function_doc rt self in
      ret (map (unresolvable_of_token self) (doc_tokens self (fst parsed)))
  | Some signature_params =>
      ret (map (SignatureParamName (parent_value self))
               signature_params)
  end.

(** The property [CompiledObject.string_names]: the tuple, as a list. *)
Definition string_names (self : CompiledObject) : list string :=
  match access_py__name__ an (access_handle self) with
  | None => []
  | Some name =>
      map string_of_list_ascii (Doc.split_on "." (list_ascii_of_string name))
  end.

(** [CompiledObject.py__class__]. *)
Definition py__class__ : CompiledObject -> M State (option CompiledObject) :=
  CheckAttribute rt None "py__class__" (fun self =>
    lift (create_from_access_path
            (access_py__class__ an (access_handle self)))).

(** [CompiledObject.py__bases__]: the tuple, whose members are objects or
    [None]. *)
Definition py__bases__
  : CompiledObject -> M State (list (option CompiledObject)) :=
  CheckAttribute rt None "py__bases__" (fun self =>
    mapM (fun access => lift (create_from_access_path access))
         (access_py__bases__ an (access_handle self))).

(** The loop of [_create_from_name], entered with [value]. *)
Fixpoint create_chain (access_paths : list Handle)
    (value : option CompiledObject) (st : State)
  : option CompiledObject * State :=
  match access_paths with
  | [] => (value, st)
  | access_path :: rest =>
      let (o, st') := create_cached_compiled_object access_path value st in
      create_chain rest (Some o) st'
  end.

(** [_create_from_name]: the local [parent_value] is computed and then not
    used; the parent of each object is the object of the step before. *)
Definition _create_from_name (compiled_object : CompiledObject)
    (name : string) : M State (option CompiledObject) :=
  let h := access_handle compiled_object in
  let* access_paths :=
    ask (QGetattrPaths h name) (access_getattr_default an h name) in
  let* cls := ask (QIsClass h) (is_class rt h) in
  let parent_value :=
    if cls then parent_value compiled_object
    else Some (obj_id compiled_object) in
  lift (create_chain access_paths None).

End Methods.

End Object.

(** ** Further notions *)

(** Every cached object carries the handle and the parent it is cached
    under. *)
Definition cache_sound (st : Compiled.State) : Prop :=
  forall access parent o,
    Compiled.memoize_cache st !! (access, parent) = Some o ->
    access_handle o = access /\ parent_value o = parent.

(** Where the search for the arrow of the return text starts: at the closing
    parenthesis of the group, and at 0 when no group is found. *)
Definition return_search_start (doc : Doc.str) : nat :=
  match Doc.find_params doc with
  | Ok (end_, _) => end_
  | Raise _ => 0
  end.

(** The position right after the arrow marker, when the seven characters from
    the start of the search hold one. *)
Definition arrow_end (doc : Doc.str) : option nat :=
  let start := return_search_start doc in
  option_map (fun r_end => start + r_end)
             (Doc.search_arrow_end (Doc.slice doc start (start + 7))).

(** An arrow marker with no return text after it: the text ends there, or
    goes on with a newline or a hyphen. *)
Definition dangling_arrow (doc : Doc.str) : Prop :=
  exists index,
    arrow_end doc = Some index /\
    match drop index doc with
    | [] => True
    | c :: _ => c = Doc.newline \/ c = "-"%char
    end.

(** How often the character [c] occurs in [s]. *)
Definition count_char (c : ascii) (s : Doc.str) : nat :=
  length (List.filter (Ascii.eqb c) s).

(** [d[k] = v] on the dict [d]. *)
Definition dict_setitem (d : Lazy.Loc) (k : Lazy.Node)
    (v : gmap string (gset Value)) : M Lazy.Heap unit :=
  fun h =>
    (Ok tt,
     {| Lazy.predefined_names := Lazy.predefined_names h;
        Lazy.dict_contents :=
          fun l => if decide (l = d) then <[k := v]> (Lazy.dict_contents h l)
                   else Lazy.dict_contents h l;
        Lazy.next_loc := Lazy.next_loc h |}).

(** ** A second small runtime

    The runtime of [Sample] with two more objects: handle 8 is a method
    descriptor with the doc [foo(a, [b]) -> str] and no signature, handle 9 a
    function whose doc names no built-in; handle 6 has a signature of one
    parameter; the built-in module, handle 0, is named [os.path] here to have
    a dotted name.  Every handle but the module exposes [__class__], and
    handle 1 exposes [__bases__]. *)
Module Sample2.

Import Compiled Object.

Local Open Scope string_scope.

Definition rt : Runtime := {|
  get_return_annotation := get_return_annotation Sample.rt;
  getattr_paths h name :=
    if negb (h =? 0)%nat
       && (String.eqb name "__class__"
           || (String.eqb name "__bases__" && (h =? 1)%nat))
    then Some []
    else getattr_paths Sample.rt h name;
  is_class := is_class Sample.rt;
  get_api_type h :=
    if (h =? 9)%nat then "function" else get_api_type Sample.rt h;
  py__doc__ h :=
    if (h =? 8)%nat then Some "foo(a, [b]) -> str"
    else if (h =? 9)%nat then Some "h() -> widget of gears"
    else py__doc__ Sample.rt h;
  py__mro__accesses := py__mro__accesses Sample.rt;
  is_allowed_getattr := is_allowed_getattr Sample.rt;
  dir := dir Sample.rt;
  get_dir_infos := get_dir_infos Sample.rt
|}.

Definition param_x : SignatureParam := {|
  name := "x";
  has_default := false;
  default_path := [];
  default_string := "";
  has_annotation := false;
  annotation := [];
  annotation_string := "";
  kind_name := "POSITIONAL_OR_KEYWORD"
|}.

Definition an : Answers := {|
  access_get_signature_params h :=
    if (h =? 6)%nat then Some [param_x] else None;
  access_ismethoddescriptor h := (h =? 8)%nat;
  access_py__name__ h := if (h =? 0)%nat then Some "os.path" else None;
  access_py__class__ _ := Sample.builtin_path "type" 3;
  access_py__bases__ _ := [Sample.builtin_path "object" 7];
  access_getattr_default _ _ := [0; 2]
|}.


End Sample2.

(** * Properties *)

(** ** The documentation parser *)

Section DocFacts.

Import Doc.

Lemma scan_parens_None start count i rest :
  scan_parens start count i rest = None <->
  forall n, 0 < n <= length rest ->
            fold_left paren_step (take n rest) count <> 0%Z.
Proof.
  revert count i. induction rest as [|c rest IH]; intros count i; simpl.
  - split; [intros _ n Hn; lia | done].
  - fold (paren_step count c).
    destruct (Z.eqb_spec (paren_step count c) 0) as [Hz|Hz].
    + split; [done|]. intros H. exfalso.
      apply (H 1); [lia|]. simpl. exact Hz.
    + rewrite IH. split.
      * intros H [|n] Hn; [lia|]. simpl.
        destruct n as [|n]; [exact Hz|]. apply H. lia.
      * intros H n Hn. specialize (H (S n)). simpl in H. apply H. lia.
Qed.

Lemma scan_parens_Some start count i rest end_ :
  scan_parens start count i rest = Some end_ ->
  exists n, 0 < n <= length rest /\
            fold_left paren_step (take n rest) count = 0%Z /\
            end_ = start + i + n - 1.
Proof.
  revert count i. induction rest as [|c rest IH]; intros count i; simpl.
  - done.
  - fold (paren_step count c).
    destruct (Z.eqb_spec (paren_step count c) 0) as [Hz|Hz].
    + intros [= <-]. exists 1. simpl. split; [lia|].
      split; [done|lia].
    + intros H. destruct (IH _ _ H) as (n & Hn & Hd & ->).
      exists (S n). simpl. split; [lia|]. split; [done|lia].
Qed.

Lemma index_raises c s e : index c s = Raise e -> e = ValueError.
Proof.
  revert e. induction s as [|x s IH]; intros e; simpl.
  - congruence.
  - destruct (Ascii.eqb x c); [done|].
    destruct (index c s); simpl; [done|]. intros [= <-]. by apply IH.
Qed.

(** The scan of the source finds a closing position exactly when the text has
    a balanced group. *)
Lemma find_params_Ok doc :
  (exists r, find_params doc = Ok r) <-> has_balanced_group doc.
Proof.
  unfold find_params, has_balanced_group, depth. split.
  - intros [r Hr]. destruct (index "(" doc) as [start|e]; [|done].
    simpl in Hr.
    destruct (scan_parens start 0 0 (drop start doc)) as [end_|] eqn:Hs;
      [|done].
    apply scan_parens_Some in Hs as (n & Hn & Hd & _).
    by exists start, n.
  - intros (start & n & -> & Hn & Hd). simpl.
    destruct (scan_parens start 0 0 (drop start doc)) as [end_|] eqn:Hs;
      [by eexists|].
    exfalso. by eapply scan_parens_None.
Qed.

Lemma find_params_raises doc e :
  find_params doc = Raise e -> e = ValueError \/ e = UnboundLocalError.
Proof.
  unfold find_params. destruct (index "(" doc) as [start|e'] eqn:Hi; simpl.
  - destruct (scan_parens _ _ _ _); [done|]. intros [= <-]. by right.
  - intros [= <-]. left. by eapply index_raises.
Qed.

(** Without a balanced group the parser goes on from offset 0 with the empty
    parameter string. *)
Lemma parse_without_group doc :
  ~ has_balanced_group doc ->
  parse_function_doc doc =
    match search_arrow_end (take 7 doc) with
    | None => Ok ([], [])
    | Some r_end =>
        rbind (match_ret doc r_end) (fun g =>
          Ok ([], docstr_defaults_get (sub_new (strip g))))
    end.
Proof.
  intros Hno. unfold parse_function_doc.
  destruct (find_params doc) as [r|e] eqn:Hf.
  - exfalso. apply Hno, find_params_Ok. by eexists.
  - apply find_params_raises in Hf as [-> | ->]; simpl; reflexivity.
Qed.

(** *** The fuel of the regular-expression loops is enough *)

Lemma span_spec p s a b :
  span p s = (a, b) ->
  s = a ++ b /\ forallb p a = true /\
  match b with [] => True | c :: _ => p c = false end.
Proof.
  revert a b. induction s as [|c s IH]; intros a b; simpl.
  - by intros [= <- <-].
  - destruct (p c) eqn:Hp.
    + destruct (span p s) as [a' b']. intros [= <- <-].
      destruct (IH _ _ eq_refl) as (-> & Ha & Hb). simpl. by rewrite Hp.
    + intros [= <- <-]. by rewrite Hp.
Qed.

Lemma match_bracket_spec s g r :
  match_bracket s = Some (g, r) ->
  s = "["%char :: g ++ "]"%char :: r /\ forallb not_bracket g = true.
Proof.
  unfold match_bracket. destruct s as [|c t]; [done|].
  destruct (Ascii.eqb_spec c "[") as [->|]; [|done].
  destruct (span not_bracket t) as [a b] eqn:Hs.
  apply span_spec in Hs as (-> & Ha & _).
  destruct a as [|x a]; [done|]. destruct b as [|c' b]; [done|].
  destruct (Ascii.eqb_spec c' "]") as [->|]; [|done].
  by intros [= <- <-].
Qed.

Lemma match_optional_spec s g r :
  match_optional s = Some (g, r) ->
  exists pre, s = pre ++ "["%char :: g ++ "]"%char :: r /\
              (pre = [] \/ pre = [" "%char]) /\
              forallb not_bracket g = true.
Proof.
  unfold match_optional. destruct s as [|c t]; [done|].
  destruct (Ascii.eqb_spec c " ") as [->|].
  - destruct (match_bracket t) as [[g' r']|] eqn:Hm.
    + intros [= <- <-]. apply match_bracket_spec in Hm as [-> Hg].
      exists [" "%char]. auto.
    + intros Hm'. apply match_bracket_spec in Hm' as [[=] _].
  - intros Hm. apply match_bracket_spec in Hm as [-> Hg]. exists []. auto.
Qed.

Lemma match_optional_shorter s g r :
  match_optional s = Some (g, r) -> length r < length s.
Proof.
  intros H. apply match_optional_spec in H as (pre & -> & _ & _).
  rewrite length_app. simpl. rewrite length_app. simpl. lia.
Qed.

Lemma subn_optional_fuel n m s :
  length s < n -> length s < m ->
  subn_optional_from n s = subn_optional_from m s.
Proof.
  revert m s. induction n as [|n IH]; intros m s Hn Hm; [lia|].
  destruct m as [|m]; [lia|]. simpl.
  destruct (match_optional s) as [[g rest]|] eqn:Hmatch.
  - apply match_optional_shorter in Hmatch.
    rewrite (IH m rest); [done|lia|lia].
  - destruct s as [|c t]; [done|]. simpl in *.
    rewrite (IH m t); [done|lia|lia].
Qed.

Lemma subn_optional_unchanged n s out :
  subn_optional_from n s = (out, 0) -> out = s.
Proof.
  revert s out. induction n as [|n IH]; intros s out; simpl.
  - by intros [= <-].
  - destruct (match_optional s) as [[g rest]|].
    + destruct (subn_optional_from n rest). done.
    + destruct s as [|c t]; [by intros [= <-]|].
      destruct (subn_optional_from n t) as [out' k] eqn:Ht.
      intros [= <- ->]. f_equal. by apply IH.
Qed.

Lemma count_open_app a b : count_open (a ++ b) = count_open a + count_open b.
Proof. unfold count_open. by rewrite List.filter_app, length_app. Qed.

Lemma count_open_cons c s :
  count_open (c :: s) = (if Ascii.eqb c "[" then 1 else 0) + count_open s.
Proof.
  unfold count_open. simpl. by destruct (Ascii.eqb c "[").
Qed.

Lemma count_open_zero s :
  forallb (fun c => negb (Ascii.eqb c "[")) s = true -> count_open s = 0.
Proof.
  induction s as [|c s IH]; [done|]. simpl. rewrite count_open_cons.
  intros [Hc Hs]%andb_prop. rewrite (IH Hs).
  by destruct (Ascii.eqb c "[").
Qed.

Lemma count_open_zero_inv s :
  count_open s = 0 -> forallb (fun c => negb (Ascii.eqb c "[")) s = true.
Proof.
  induction s as [|c s IH]; [done|]. rewrite count_open_cons. simpl.
  destruct (Ascii.eqb c "["); simpl; [lia|]. intros H. by apply IH.
Qed.

Lemma count_open_not_bracket g :
  forallb not_bracket g = true -> count_open g = 0.
Proof.
  intros H. apply count_open_zero. rewrite forallb_forall in *.
  intros c Hc. specialize (H c Hc). unfold not_bracket in H.
  by destruct (Ascii.eqb c "[").
Qed.

Lemma count_open_split_on sep s :
  count_open s = 0 -> Forall (fun f => count_open f = 0) (split_on sep s).
Proof.
  induction s as [|c s IH]; simpl.
  - intros _. by constructor.
  - rewrite count_open_cons. intros H.
    assert (Hc : Ascii.eqb c "[" = false) by (destruct (Ascii.eqb c "["); [simpl in H; lia|done]).
    rewrite Hc in H. simpl in H. specialize (IH H).
    destruct (split_on sep s) as [|f fs].
    + constructor; [|done]. by rewrite count_open_cons, Hc.
    + inversion IH as [|? ? Hf Hfs]; subst.
      destruct (Ascii.eqb c sep).
      * by repeat constructor.
      * constructor; [|done]. by rewrite count_open_cons, Hc.
Qed.

Lemma count_open_join sep parts :
  count_open sep = 0 -> Forall (fun f => count_open f = 0) parts ->
  count_open (join sep parts) = 0.
Proof.
  intros Hsep. induction 1 as [|p ps Hp Hps IH]; [done|]. simpl.
  destruct ps as [|q ps]; [done|].
  rewrite !count_open_app, Hp, Hsep, IH. done.
Qed.

Lemma count_open_change_options g :
  count_open g = 0 -> count_open (change_options g) = 0.
Proof.
  intros Hg. unfold change_options. apply count_open_join; [done|].
  apply Forall_map. eapply Forall_impl; [by apply count_open_split_on|].
  intros a Ha. simpl. destruct a as [|c a]; [done|].
  destruct (contains "=" (c :: a)); [done|].
  rewrite count_open_app, Ha. done.
Qed.

(** Every replacement removes exactly one opening bracket. *)
Lemma subn_optional_count n s out k :
  length s < n -> subn_optional_from n s = (out, k) ->
  count_open out + k = count_open s.
Proof.
  revert s out k. induction n as [|n IH]; intros s out k Hn; [lia|]. simpl.
  destruct (match_optional s) as [[g rest]|] eqn:Hmatch.
  - pose proof (match_optional_shorter _ _ _ Hmatch) as Hlt.
    apply match_optional_spec in Hmatch as (pre & -> & Hpre & Hg).
    destruct (subn_optional_from n rest) as [out' k'] eqn:Hrest.
    intros [= <- <-]. apply IH in Hrest; [|lia].
    rewrite !count_open_app, count_open_cons, count_open_app, count_open_cons.
    rewrite (count_open_change_options g), (count_open_not_bracket g)
      by auto using count_open_not_bracket.
    simpl. destruct Hpre as [-> | ->]; simpl; rewrite ?count_open_cons; simpl.
    all: lia.
  - destruct s as [|c t]; [by intros [= <- <-]|].
    destruct (subn_optional_from n t) as [out' k'] eqn:Ht.
    intros [= <- <-]. simpl in Hn. apply IH in Ht; [|lia].
    rewrite !count_open_cons. lia.
Qed.

Lemma strip_optionals_from_fixed fuel s :
  count_open s < fuel ->
  snd (subn_optional (strip_optionals_from fuel s)) = 0.
Proof.
  revert s. induction fuel as [|fuel IH]; intros s Hf; [lia|]. simpl.
  destruct (subn_optional s) as [s' changes] eqn:Hs.
  destruct (Nat.eqb_spec changes 0) as [->|Hne].
  - unfold subn_optional in Hs.
    pose proof (subn_optional_unchanged _ _ _ Hs) as ->. unfold subn_optional.
    by rewrite Hs.
  - apply IH. unfold subn_optional in Hs.
    apply subn_optional_count in Hs; [lia|lia].
Qed.

(** The loop that strips the optional brackets is left because a round made
    no change, never because the fuel ran out. *)
Lemma strip_optionals_fixed s :
  snd (subn_optional (strip_optionals s)) = 0.
Proof. apply strip_optionals_from_fixed. lia. Qed.

Lemma match_new_shorter s g rest :
  match_new s = Some (g, rest) -> length rest < length s.
Proof.
  unfold match_new. destruct s as [|n [|e [|w [|sp t]]]]; try done.
  destruct (_ && _); [|done].
  destruct (span _ t) as [a b] eqn:Hs. intros [= <- <-].
  apply span_spec in Hs as (-> & _ & _). simpl. rewrite length_app. lia.
Qed.

Lemma sub_new_fuel n m s :
  length s < n -> length s < m -> sub_new_from n s = sub_new_from m s.
Proof.
  revert m s. induction n as [|n IH]; intros m s Hn Hm; [lia|].
  destruct m as [|m]; [lia|]. simpl.
  destruct (match_new s) as [[g rest]|] eqn:Hmatch.
  - apply match_new_shorter in Hmatch. rewrite (IH m rest); [done|lia|lia].
  - destruct s as [|c t]; [done|]. simpl in *.
    rewrite (IH m t); [done|lia|lia].
Qed.

(** The only failure of the parser is the [AttributeError] of a return text
    that does not match. *)
Lemma parse_function_doc_raises doc e :
  parse_function_doc doc = Raise e -> e = AttributeError.
Proof.
  unfold parse_function_doc.
  destruct (find_params doc) as [[end_ param_str]|e'] eqn:Hf; simpl.
  - destruct (search_arrow_end _); [|done].
    unfold match_ret. destruct (match_ret_run _); simpl; [|done].
    by intros [= <-].
  - apply find_params_raises in Hf as [-> | ->]; simpl;
      (destruct (search_arrow_end _); [|done]);
      unfold match_ret; (destruct (match_ret_run _); simpl; [|done]);
      by intros [= <-].
Qed.

Lemma no_group_of_raise doc e :
  find_params doc = Raise e -> ~ has_balanced_group doc.
Proof. intros He [r Hr]%find_params_Ok. congruence. Qed.

Local Open Scope string_scope.

(** The round-trip cases of the specification. *)
Example parse_doc_plain :
  _parse_function_doc "foo(a, b) -> int" = Ok ("a, b", "int").
Proof. vm_compute. reflexivity. Qed.

Example parse_doc_new :
  _parse_function_doc "bar() -> New list" = Ok ("", "list()").
Proof. vm_compute. reflexivity. Qed.

Example parse_doc_table :
  _parse_function_doc "bar() -> dictionary" = Ok ("", "dict").
Proof. vm_compute. reflexivity. Qed.

Example parse_doc_nested_optionals :
  _parse_function_doc "foo(a[, b[, c]]) -- integer"
  = Ok ("a, b=None, c=None", "int").
Proof. vm_compute. reflexivity. Qed.

Example parse_doc_unbalanced :
  _parse_function_doc "foo(a, (b -> x" = Ok ("", "").
Proof. vm_compute. reflexivity. Qed.

(** An arrow with nothing after it: the match of the return text is [None]
    and the parser raises. *)
Example parse_doc_dangling_arrow :
  _parse_function_doc "- " = Raise AttributeError.
Proof. vm_compute. reflexivity. Qed.

(** C8, as stated, fails: the text [-> int] has no parenthesis at all, and
    the parser still returns the return string [int], because the search for
    the arrow starts at offset 0 when no group is found. *)
Lemma parse_doc_arrow_without_group :
  ~ (~ has_balanced_group (list_ascii_of_string "-> int") ->
     _parse_function_doc "-> int" = Ok ("", "")).
Proof.
  intros H.
  assert (Hno : ~ has_balanced_group (list_ascii_of_string "-> int"))
    by (apply (no_group_of_raise _ ValueError); reflexivity).
  specialize (H Hno). vm_compute in H. discriminate H.
Qed.

(** C8 (amended): for every documentation string in which no balanced
    parenthesis group is found, the parameter string of every result is
    empty; when the first seven characters hold no arrow marker the parser
    returns the empty parameter string and the empty return string without
    raising; and when they hold one and return text follows it, the parser
    returns the empty parameter string and the return string read after the
    marker. *)
Theorem parse_doc_without_balanced_group (doc : string) :
  ~ has_balanced_group (list_ascii_of_string doc) ->
  (forall p r, _parse_function_doc doc = Ok (p, r) -> p = "") /\
  (search_arrow_end (take 7 (list_ascii_of_string doc)) = None ->
   _parse_function_doc doc = Ok ("", "")) /\
  (forall r_end g,
     search_arrow_end (take 7 (list_ascii_of_string doc)) = Some r_end ->
     match_ret (list_ascii_of_string doc) r_end = Ok g ->
     _parse_function_doc doc
     = Ok ("", string_of_list_ascii (docstr_defaults_get (sub_new (strip g))))).
Proof.
  intros Hno. unfold _parse_function_doc.
  rewrite (parse_without_group _ Hno).
  destruct (search_arrow_end (take 7 (list_ascii_of_string doc)))
    as [r_end|]; simpl.
  - split; [|split].
    + intros p r. destruct (match_ret _ r_end); simpl; [|done].
      by intros [= <- _].
    + done.
    + intros ? g [= <-] ->. reflexivity.
  - split; [|split]; [by intros p r [= <- _] | done | done].
Qed.

Lemma parse_doc_without_balanced_group_witness :
  (forall p r, _parse_function_doc "foo(a, (b" = Ok (p, r) -> p = "") /\
  (search_arrow_end (take 7 (list_ascii_of_string "foo(a, (b")) = None ->
   _parse_function_doc "foo(a, (b" = Ok ("", "")) /\
  (forall r_end g,
     search_arrow_end (take 7 (list_ascii_of_string "foo(a, (b"))
     = Some r_end ->
     match_ret (list_ascii_of_string "foo(a, (b") r_end = Ok g ->
     _parse_function_doc "foo(a, (b"
     = Ok ("", string_of_list_ascii (docstr_defaults_get (sub_new (strip g))))).
Proof.
  apply (parse_doc_without_balanced_group "foo(a, (b").
  apply (no_group_of_raise _ UnboundLocalError). reflexivity.
Defined.

(** C9: the documentation parser maps [foo(a, [b]) -> str] to the parameter
    string [a,b=None] and the return string [str]. *)
Theorem parse_doc_optional_bracket :
  _parse_function_doc "foo(a, [b]) -> str" = Ok ("a,b=None", "str").
Proof. vm_compute. reflexivity. Qed.

End DocFacts.

(** ** Lazy values *)

Section LazyFacts.

Import Lazy.

Variable infer_node : Context -> Node -> M Heap ValueSet.

Lemma infer_merged data :
  infer infer_node (MergedLazyValues data)
  = bind (mapM (infer infer_node) data) (fun sets => ret (from_sets sets)).
Proof.
  simpl. f_equal. induction data as [|l rest IH]; simpl; [done|].
  by rewrite IH.
Qed.

(** C3: a known value infers to the singleton of its value and an unknown
    value to the empty set, both without touching the heap; and the merge of
    two lazy values infers to the union of what the first and then the second
    infer. *)
Theorem lazy_infer_laws :
  (forall v h, infer infer_node (LazyKnownValue v) h = (Ok {[ v ]}, h)) /\
  (forall h, infer infer_node LazyUnknownValue h = (Ok ∅, h)) /\
  (forall a b h,
      infer infer_node (MergedLazyValues [a; b]) h
      = bind (infer infer_node a) (fun x =>
          bind (infer infer_node b) (fun y => ret (x ∪ y))) h).
Proof.
  split; [|split].
  - intros v h. simpl. unfold ret. do 2 f_equal.
    by rewrite (right_id_L ∅ (∪)).
  - done.
  - intros a b h. rewrite infer_merged. simpl. unfold bind, ret.
    destruct (infer infer_node a h) as [[x|e] h1]; [|done].
    destruct (infer infer_node b h1) as [[y|e] h2]; [|done].
    unfold from_sets. simpl. by rewrite (right_id_L ∅ (∪)).
Qed.

(** Inference of a lazy value without tree values is a pure function of the
    value: it returns the same set from every heap and leaves the heap as it
    was. *)
Lemma infer_tree_free_pure l :
  tree_free l = true -> exists s, forall h, infer infer_node l h = (Ok s, h).
Proof.
  induction l as [v|vs| |value node snapshot|data IH]
    using LazyValue_nested_ind; intros Hfree.
  - by eexists.
  - by eexists.
  - by eexists.
  - done.
  - simpl in Hfree.
    assert (exists ss, forall h, mapM (infer infer_node) data h = (Ok ss, h))
      as [ss Hss].
    { induction IH as [|l rest Hl _ IHrest]; [by exists []|].
      simpl in Hfree. apply andb_prop in Hfree as [Hl' Hrest'].
      destruct (Hl Hl') as [s Hs]. destruct (IHrest Hrest') as [ss Hss].
      exists (s :: ss). intros h. simpl. unfold bind, ret.
      by rewrite Hs, Hss. }
    exists (from_sets ss). intros h. rewrite infer_merged. unfold bind, ret.
    by rewrite Hss.
Qed.

(** C4: a tree lazy value runs the node-level inference of its context with
    the snapshot bound, hands on its result or its failure, and leaves the
    [predefined_names] of the context bound to what it was bound to before
    the call, whatever the snapshot. *)
Theorem tree_infer_restores value node snapshot h :
  let h1 := snd (setattr_predefined_names value snapshot h) in
  let out := infer infer_node (LazyTreeValue value node snapshot) h in
  predefined_names h1 value = snapshot /\
  fst out = fst (infer_node value node h1) /\
  predefined_names (snd out) value = predefined_names h value.
Proof.
  simpl. unfold monkeypatch, try_finally, bind, getattr_predefined_names.
  simpl. split; [by rewrite decide_True|].
  destruct (infer_node value node _) as [r h2]. simpl.
  split; [done|]. by rewrite decide_True.
Qed.

(** What the call leaves of the heap apart from that binding is what the
    node-level inference left. *)
Lemma tree_infer_frame value node snapshot h :
  let h1 := snd (setattr_predefined_names value snapshot h) in
  let h2 := snd (infer_node value node h1) in
  let h3 := snd (infer infer_node (LazyTreeValue value node snapshot) h) in
  (forall c, c <> value -> predefined_names h3 c = predefined_names h2 c) /\
  dict_contents h3 = dict_contents h2 /\ next_loc h3 = next_loc h2.
Proof.
  simpl. unfold monkeypatch, try_finally, bind, getattr_predefined_names.
  simpl. destruct (infer_node value node _) as [r h2]. simpl.
  split; [|done]. intros c Hc. by rewrite decide_False.
Qed.

(** The binding of the context after the inference of a tree lazy value. *)
Lemma tree_infer_binding value node snapshot h :
  predefined_names
    (snd (infer infer_node (LazyTreeValue value node snapshot) h)) value
  = predefined_names h value.
Proof.
  simpl. unfold monkeypatch, try_finally, bind, getattr_predefined_names.
  simpl. destruct (infer_node value node _) as [r h2]. simpl.
  by rewrite decide_True.
Qed.

(** With the contents of the table left alone by the node-level inference,
    the table the context is bound to after the call also holds what it held
    before. *)
Lemma tree_infer_table_contents value node snapshot h :
  let h1 := snd (setattr_predefined_names value snapshot h) in
  let out := infer infer_node (LazyTreeValue value node snapshot) h in
  dict_contents (snd (infer_node value node h1)) (predefined_names h value)
  = dict_contents h (predefined_names h value) ->
  dict_contents (snd out) (predefined_names (snd out) value)
  = dict_contents h (predefined_names h value).
Proof.
  intros h1 out Hframe.
  pose proof (tree_infer_binding value node snapshot h) as Hbound.
  destruct (tree_infer_frame value node snapshot h) as (_ & Hdict & _).
  fold out in Hbound, Hdict. fold h1 in Hdict. by rewrite Hbound, Hdict.
Qed.

(** X20: when the node-level inference itself leaves every binding as it
    found it, so does the inference of every lazy value, merges of tree
    values included. *)
Lemma infer_preserves_bindings :
  (forall c n h c',
      predefined_names (snd (infer_node c n h)) c' = predefined_names h c') ->
  forall l h c',
    predefined_names (snd (infer infer_node l h)) c' = predefined_names h c'.
Proof.
  intros Hnode l.
  induction l as [v|vs| |value node snapshot|data IH]
    using LazyValue_nested_ind; intros h c'; try done.
  - destruct (decide (c' = value)) as [->|Hne].
    + apply tree_infer_binding.
    + destruct (tree_infer_frame value node snapshot h) as (Hother & _ & _).
      rewrite (Hother c' Hne), Hnode. simpl. by rewrite decide_False.
  - rewrite infer_merged. unfold bind, ret.
    assert (Hall : forall h, predefined_names
                                (snd (mapM (infer infer_node) data h)) c'
                              = predefined_names h c').
    { clear h. induction IH as [|l rest Hl _ IHrest]; intros h; [done|].
      simpl. unfold bind, ret. specialize (Hl h c').
      destruct (infer infer_node l h) as [[s|e] h1]; [|done].
      specialize (IHrest h1).
      destruct (mapM (infer infer_node) rest h1) as [[ss|e] h2]; simpl in *;
        congruence. }
    specialize (Hall h).
    by destruct (mapM (infer infer_node) data h) as [[ss|e] h1].
Qed.

(** The constructor of a tree lazy value stores a new dict with the contents
    of the table of the context, and changes nothing else. *)
Lemma new_LazyTreeValue_snapshot value node h :
  let out := new_LazyTreeValue value node h in
  fst out = Ok (LazyTreeValue value node (next_loc h)) /\
  dict_contents (snd out) (next_loc h)
  = dict_contents h (predefined_names h value) /\
  predefined_names (snd out) = predefined_names h /\
  forall l, l <> next_loc h -> dict_contents (snd out) l = dict_contents h l.
Proof.
  simpl. split; [done|]. split; [by rewrite decide_True|]. split; [done|].
  intros l Hl. by rewrite decide_False.
Qed.

End LazyFacts.

(** The restoration on a failing exit: the node-level inference rebinds the
    attribute and raises; the failure comes out and the binding is back. *)
Example tree_infer_restores_on_failure :
  let h := {| Lazy.predefined_names := fun _ => 3;
              Lazy.dict_contents := fun _ => ∅;
              Lazy.next_loc := 10 |} in
  let failing := fun c (_ : Lazy.Node) =>
    bind (Lazy.setattr_predefined_names c 9) (fun _ => raise (OtherError 0)) in
  let out := Lazy.infer failing (Lazy.LazyTreeValue 0 1 5) h in
  fst out = Raise (OtherError 0) /\ Lazy.predefined_names (snd out) 0 = 3.
Proof. split; reflexivity. Qed.

(** ** Identity-keyed creation *)

Section CreationFacts.

Import Compiled.

Lemma create_cached_hit access parent st o :
  memoize_cache st !! (access, obj_id <$> parent) = Some o ->
  create_cached_compiled_object access parent st = (o, st).
Proof.
  intros H. unfold create_cached_compiled_object, infer_state_function_cache.
  by rewrite H.
Qed.

Lemma create_cached_spec access parent st o st' :
  create_cached_compiled_object access parent st = (o, st') ->
  memoize_cache st' !! (access, obj_id <$> parent) = Some o /\
  memoize_cache st ⊆ memoize_cache st' /\
  (cache_wf st -> cache_wf st').
Proof.
  unfold create_cached_compiled_object, infer_state_function_cache.
  destruct (memoize_cache st !! _) as [rv|] eqn:Hlook.
  - intros [= <- <-]. done.
  - simpl. intros [= <- <-]. simpl. split; [by rewrite lookup_insert_eq|].
    split; [by apply insert_subseteq|].
    intros [Hlt Hinj]. split; simpl.
    + intros k o. rewrite lookup_insert. case_decide as Hk.
      * intros [= <-]. simpl. lia.
      * intros Ho. apply Hlt in Ho. lia.
    + intros k k' o o'. rewrite !lookup_insert.
      case_decide as Hk; case_decide as Hk'.
      * congruence.
      * intros [= <-] Ho' Hid. simpl in Hid. apply Hlt in Ho'. lia.
      * intros Ho [= <-] Hid. simpl in Hid. apply Hlt in Ho. lia.
      * apply Hinj.
Qed.

Lemma resolve_mono cache cache' accesses parent o :
  cache ⊆ cache' -> resolve cache accesses parent = Some o ->
  resolve cache' accesses parent = Some o.
Proof.
  intros Hsub. revert parent. induction accesses as [|[name access] rest IH];
    intros parent; simpl; [done|].
  destruct (cache !! _) as [x|] eqn:Hx; [|done].
  rewrite (lookup_weaken _ _ _ _ Hx Hsub). apply IH.
Qed.

(** The names of a path play no part. *)
Lemma resolve_handles cache p q parent :
  map snd p = map snd q -> resolve cache p parent = resolve cache q parent.
Proof.
  revert q parent. induction p as [|[n a] p IH]; intros [|[m b] q] parent;
    simpl; try done.
  intros [= -> Hrest]. destruct (cache !! _); [by apply IH|done].
Qed.

Lemma create_from_spec accesses parent st o st' :
  create_from accesses parent st = (o, st') ->
  resolve (memoize_cache st') accesses parent = Some o /\
  memoize_cache st ⊆ memoize_cache st' /\
  (cache_wf st -> cache_wf st').
Proof.
  revert parent st. induction accesses as [|[name access] rest IH];
    intros parent st; simpl.
  - by intros [= <- <-].
  - destruct (create_cached_compiled_object access parent st) as [x st1]
      eqn:Hx.
    intros Hrest. apply create_cached_spec in Hx as (Hx & Hsub1 & Hwf1).
    apply IH in Hrest as (Hres & Hsub2 & Hwf2).
    rewrite (lookup_weaken _ _ _ _ Hx Hsub2).
    split; [done|]. split; [by etrans|auto].
Qed.

(** A path the cache already resolves is created without any change. *)
Lemma create_from_resolved accesses parent st o :
  resolve (memoize_cache st) accesses parent = Some o ->
  create_from accesses parent st = (o, st).
Proof.
  revert parent. induction accesses as [|[name access] rest IH];
    intros parent; simpl.
  - by intros [= <-].
  - destruct (memoize_cache st !! _) as [x|] eqn:Hx; [|done].
    rewrite (create_cached_hit _ _ _ _ Hx). apply IH.
Qed.

Lemma create_all_spec paths st :
  memoize_cache st ⊆ memoize_cache (create_all paths st) /\
  (cache_wf st -> cache_wf (create_all paths st)).
Proof.
  revert st. induction paths as [|p rest IH]; intros st; simpl; [done|].
  unfold create_from_access_path.
  destruct (create_from p None st) as [o st1] eqn:Hp. simpl.
  apply create_from_spec in Hp as (_ & Hsub & Hwf).
  destruct (IH st1) as [Hsub' Hwf'].
  split; [by etrans|auto].
Qed.

Lemma resolve_snoc cache p name access parent :
  resolve cache (p ++ [(name, access)]) parent
  = match resolve cache p parent with
    | Some x =>
        match cache !! (access, obj_id <$> x) with
        | Some o => Some (Some o)
        | None => None
        end
    | None => None
    end.
Proof.
  revert parent. induction p as [|[n a] p IH]; intros parent; simpl.
  - by destruct (cache !! _).
  - destruct (cache !! (a, _)); [apply IH|done].
Qed.

(** In a well-formed cache the object at the end of a path determines the
    handles of the path. *)
Lemma resolve_injective st p q o o' :
  cache_wf st ->
  resolve (memoize_cache st) p None = Some o ->
  resolve (memoize_cache st) q None = Some o' ->
  obj_id <$> o = obj_id <$> o' -> map snd p = map snd q.
Proof.
  intros [_ Hinj]. revert q o o'.
  induction p as [|[n a] p IH] using rev_ind; intros q o o'.
  - simpl. intros [= <-]. destruct q as [|[m b] q _] using rev_ind; [done|].
    rewrite resolve_snoc. destruct (resolve _ q None) as [x|]; [|done].
    destruct (memoize_cache st !! _); [|done]. by intros [= <-].
  - rewrite resolve_snoc. destruct (resolve _ p None) as [x|] eqn:Hp; [|done].
    destruct (memoize_cache st !! (a, _)) as [y|] eqn:Hy; [|done].
    intros [= <-]. destruct q as [|[m b] q _] using rev_ind.
    + simpl. by intros [= <-].
    + rewrite resolve_snoc.
      destruct (resolve _ q None) as [x'|] eqn:Hq; [|done].
      destruct (memoize_cache st !! (b, _)) as [y'|] eqn:Hy'; [|done].
      intros [= <-]. simpl. intros [= Hid].
      pose proof (Hinj _ _ _ _ Hy Hy' Hid) as [= -> Hx].
      rewrite !map_app. simpl. f_equal. by eapply IH.
Qed.

Lemma cache_wf_new allow builtins : cache_wf (new_infer_state allow builtins).
Proof. split; simpl; intros *; by rewrite lookup_empty. Qed.

Lemma cache_sound_new allow builtins :
  cache_sound (new_infer_state allow builtins).
Proof. intros access parent o. simpl. by rewrite lookup_empty. Qed.

Lemma create_cached_sound access parent st :
  cache_sound st ->
  cache_sound (snd (create_cached_compiled_object access parent st)) /\
  access_handle (fst (create_cached_compiled_object access parent st))
  = access /\
  parent_value (fst (create_cached_compiled_object access parent st))
  = obj_id <$> parent.
Proof.
  intros Hsound.
  unfold create_cached_compiled_object, infer_state_function_cache.
  destruct (memoize_cache st !! _) as [rv|] eqn:Hlook; simpl.
  - split; [done|]. by apply Hsound in Hlook.
  - split; [|done]. intros access' parent' o. simpl.
    rewrite lookup_insert. case_decide as Hk.
    + injection Hk as <- <-. by intros [= <-].
    + apply Hsound.
Qed.

Lemma create_from_sound accesses parent st :
  cache_sound st -> cache_sound (snd (create_from accesses parent st)).
Proof.
  revert parent st. induction accesses as [|[name access] rest IH];
    intros parent st Hsound; simpl; [done|].
  destruct (create_cached_sound access parent st Hsound) as (Hs & _ & _).
  destruct (create_cached_compiled_object access parent st) as [o st1].
  by apply IH.
Qed.

Lemma create_from_snoc p name access parent st :
  create_from (p ++ [(name, access)]) parent st
  = (Some (fst (create_cached_compiled_object access
                  (fst (create_from p parent st))
                  (snd (create_from p parent st)))),
     snd (create_cached_compiled_object access
            (fst (create_from p parent st))
            (snd (create_from p parent st)))).
Proof.
  revert parent st. induction p as [|[n a] p IH]; intros parent st; simpl.
  - by destruct (create_cached_compiled_object access parent st).
  - destruct (create_cached_compiled_object a parent st) as [o st1].
    apply IH.
Qed.

(** The object a creation ends with: the one of the last access of the path,
    and the object the creation started from when the path has no access. *)
Lemma create_from_last accesses parent st :
  cache_sound st ->
  match last accesses with
  | Some (_, handle) =>
      exists o, fst (create_from accesses parent st) = Some o /\
                access_handle o = handle
  | None => fst (create_from accesses parent st) = parent
  end.
Proof.
  intros Hsound.
  destruct accesses as [|a rest] using rev_ind; [done|].
  destruct a as [name handle]. rewrite last_snoc, create_from_snoc. simpl.
  eexists. split; [reflexivity|].
  apply create_cached_sound. by apply create_from_sound.
Qed.

Local Open Scope string_scope.

(** C1, as stated, fails for unequal paths: two paths that differ in a name
    only are unequal, and they yield the same object, because the loop of
    [create_from_access_path] never looks at the names. *)
Lemma create_ignores_names :
  let st := new_infer_state false 0 in
  let p := [("a", 7)] in
  let q := [("b", 7)] in
  ~ (p <> q ->
     obj_id <$> fst (create_from_access_path q
                       (snd (create_from_access_path p st)))
     <> obj_id <$> fst (create_from_access_path p st)).
Proof.
  intros st p q H. apply H; [discriminate|]. vm_compute. reflexivity.
Qed.

(** C1 (amended): in an inference state, a projection created from a path
    and, after any number of further creations, one created from a path with
    the same handles in the same order (the names of the pairs play no part)
    are the same object, and the second creation leaves the state as it was;
    projections created from paths whose handle sequences differ are
    distinct objects. *)
Theorem create_identity st p q between :
  cache_wf st ->
  let first := create_from_access_path p st in
  let st2 := create_all between (snd first) in
  let second := create_from_access_path q st2 in
  (map snd p = map snd q -> fst second = fst first /\ snd second = st2) /\
  (map snd p <> map snd q -> obj_id <$> fst second <> obj_id <$> fst first).
Proof.
  intros Hwf. unfold create_from_access_path. simpl.
  destruct (create_from p None st) as [o1 st1] eqn:H1. simpl.
  apply create_from_spec in H1 as (Hres1 & _ & Hwf1). specialize (Hwf1 Hwf).
  destruct (create_all_spec between st1) as [Hsub2 Hwf2].
  specialize (Hwf2 Hwf1). set (st2 := create_all between st1) in *.
  apply (resolve_mono _ _ _ _ _ Hsub2) in Hres1.
  split.
  - intros Hpq. rewrite (resolve_handles _ _ _ _ Hpq) in Hres1.
    by rewrite (create_from_resolved _ _ _ _ Hres1).
  - intros Hpq Hid. apply Hpq.
    destruct (create_from q None st2) as [o2 st3] eqn:H2. simpl in Hid.
    apply create_from_spec in H2 as (Hres2 & Hsub3 & Hwf3).
    apply (resolve_mono _ _ _ _ _ Hsub3) in Hres1.
    symmetry in Hid.
    exact (resolve_injective _ _ _ _ _ (Hwf3 Hwf2) Hres1 Hres2 Hid).
Qed.

Lemma create_identity_witness :
  let st := new_infer_state false 0 in
  let p := [("builtins", 1); ("int", 2)] in
  let q := [("builtins", 1); ("str", 3)] in
  let first := create_from_access_path p st in
  let st2 := create_all [q] (snd first) in
  (fst (create_from_access_path p st2) = fst first /\
   snd (create_from_access_path p st2) = st2) /\
  obj_id <$> fst (create_from_access_path q st2) <> obj_id <$> fst first.
Proof.
  intros st p q first st2. split.
  - apply (create_identity st p p [q]); [apply cache_wf_new | reflexivity].
  - apply (create_identity st p q [q]); [apply cache_wf_new | discriminate].
Defined.

End CreationFacts.

(** ** The projection: MRO and calls *)

Section ProjectionFacts.

Import Compiled.

Variable rt : Runtime.
Variable eng : Engine.

Lemma create_from_queries accesses parent st :
  queries (snd (create_from accesses parent st)) = queries st.
Proof.
  revert parent st. induction accesses as [|[name access] rest IH];
    intros parent st; simpl; [done|].
  unfold create_cached_compiled_object, infer_state_function_cache.
  destruct (memoize_cache st !! _); [by rewrite IH|].
  simpl. by rewrite IH.
Qed.

(** The objects a [tuple(create_from_access_path(...) for access in ...)]
    holds: one per access, in order, each the object its path leads to in
    the cache that is left. *)
Lemma mapM_create accesses st :
  exists created st',
    mapM (fun access => lift (create_from_access_path access)) accesses st
    = (Ok created, st') /\
    memoize_cache st ⊆ memoize_cache st' /\
    Forall2 (fun access o => resolve (memoize_cache st') access None = Some o)
            accesses created.
Proof.
  revert st. induction accesses as [|access rest IH]; intros st; simpl.
  - by exists [], st.
  - unfold bind, lift at 1, create_from_access_path at 1.
    destruct (create_from access None st) as [o st1] eqn:Ho.
    apply create_from_spec in Ho as (Hres & Hsub & _).
    destruct (IH st1) as (created & st' & -> & Hsub' & Hall).
    exists (o :: created), st'. split; [done|]. split; [by etrans|].
    constructor; [|done]. by eapply resolve_mono.
Qed.

(** Without the attribute the query is unavailable: the failure of the probe
    comes out and nothing else is asked. *)
Lemma py__mro__unavailable self st :
  getattr_paths rt (access_handle self) "__mro__" = None ->
  py__mro__ rt self st
  = (Raise AttributeError, log (QGetattrPaths (access_handle self) "__mro__") st).
Proof.
  intros H.
  unfold py__mro__, CheckAttribute, bind, ask_getattr_paths, force_unicode.
  simpl. by rewrite H.
Qed.



(** The call of an object whose handle reports a return annotation, for any
    runtime: the annotation of the object created from the path is executed,
    and a path without accesses, which creates nothing, makes the attribute
    lookup on [None] fail. *)
Lemma py__call__annotated (rt0 : Runtime) self arguments st annotation :
  get_return_annotation rt0 (access_handle self) = Some annotation ->
  py__call__ rt0 eng self arguments st
  = match create_from_access_path annotation
            (log (QGetReturnAnnotation (access_handle self)) st) with
    | (Some o, st1) => execute_annotation eng o st1
    | (None, st1) => (Raise AttributeError, st1)
    end.
Proof.
  intros H. unfold py__call__, bind, ask, lift. rewrite H.
  destruct (create_from_access_path annotation _) as [[o|] st1]; simpl.
  - by destruct (execute_annotation eng o st1) as [[?|?] ?].
  - done.
Qed.

(** C2: when the handle reports a return annotation, [py__call__] is what the
    engine's [execute_annotation] returns for the object created from the
    annotation's path, which is the object of the last access of that path
    (a path without accesses leads to no object, and the call then fails
    with [AttributeError]).  When that execution begins, the only query sent
    to any handle is the one for the annotation: no probe for [__call__], no
    request for the doc; so the annotation wins, whatever the handles answer
    to every other query. *)
Theorem py__call__annotation self arguments st annotation :
  get_return_annotation rt (access_handle self) = Some annotation ->
  let asked := log (QGetReturnAnnotation (access_handle self)) st in
  let created := create_from_access_path annotation asked in
  py__call__ rt eng self arguments st
  = match fst created with
    | Some o => execute_annotation eng o (snd created)
    | None => (Raise AttributeError, snd created)
    end /\
  (cache_sound st ->
   forall name access,
     last annotation = Some (name, access) ->
     exists o, fst created = Some o /\ access_handle o = access) /\
  queries (snd created)
  = queries st ++ [QGetReturnAnnotation (access_handle self)] /\
  (forall rt' : Runtime,
      get_return_annotation rt' (access_handle self) = Some annotation ->
      py__call__ rt' eng self arguments st
      = py__call__ rt eng self arguments st).
Proof.
  intros H. simpl. split; [|split; [|split]].
  - rewrite (py__call__annotated rt _ _ _ _ H).
    by destruct (create_from_access_path annotation _) as [[o|] st1].
  - intros Hsound name access Hlast.
    pose proof (create_from_last annotation None
                  (log (QGetReturnAnnotation (access_handle self)) st)
                  Hsound) as Hshape.
    by rewrite Hlast in Hshape.
  - unfold create_from_access_path. by rewrite create_from_queries.
  - intros rt' H'.
    by rewrite (py__call__annotated rt' _ _ _ _ H'),
               (py__call__annotated rt _ _ _ _ H).
Qed.

Lemma execute_builtin_hit params name st :
  execute_builtin rt eng params name st
  = (rmap elements (fst (builtin_hit rt eng params name st)),
     snd (builtin_hit rt eng params name st)).
Proof.
  unfold execute_builtin, builtin_hit, try_except_AttributeError.
  destruct (ask_getattr_paths rt (builtins_module st) name st)
    as [[paths|[]] st1]; simpl; try done.
  unfold bind.
  destruct (builtin_from_name eng name st1) as [[b|e] st2]; [|done].
  by destruct (execute eng b params st2) as [[results|e] st3].
Qed.

Lemma mapM_execute_builtin params names st :
  mapM (execute_builtin rt eng params) names st
  = (rmap (map elements) (fst (mapM (builtin_hit rt eng params) names st)),
     snd (mapM (builtin_hit rt eng params) names st)).
Proof.
  revert st. induction names as [|name rest IH]; intros st; simpl; [done|].
  unfold bind. rewrite execute_builtin_hit.
  destruct (builtin_hit rt eng params name st) as [[s|e] st1]; simpl; [|done].
  rewrite IH.
  by destruct (mapM (builtin_hit rt eng params) rest st1) as [[ss|e] st2].
Qed.

Lemma list_to_set_concat_elements (sets : list ValueSet) :
  list_to_set (concat (map elements sets)) = (⋃ sets : ValueSet).
Proof.
  induction sets as [|x sets IH]; simpl; [done|].
  by rewrite list_to_set_app_L, list_to_set_elements_L, IH.
Qed.

(** C7 (amended): for a compiled object without return annotation that
    exposes [__call__] and is not a class, [py__call__] returns the union of
    the specification when the kind of the object is [function], and the
    empty value set when it is any other kind. *)
Theorem py__call__function_union self arguments st paths :
  let h := access_handle self in
  let asked :=
    log_all [QGetReturnAnnotation h; QGetattrPaths h "__call__"; QIsClass h;
             QGetApiType h] st in
  get_return_annotation rt h = None ->
  getattr_paths rt h "__call__" = Some paths ->
  is_class rt h = false ->
  (get_api_type rt h = "function"%string ->
   py__call__ rt eng self arguments st = call_union rt eng self arguments asked)
  /\
  (get_api_type rt h <> "function"%string ->
   py__call__ rt eng self arguments st = (Ok ∅, asked)).
Proof.
  intros h asked Hann Hcall Hcls. unfold h in *.
  assert (Hrun : py__call__ rt eng self arguments st
                 = bind (_execute_function rt eng self arguments)
                        (fun yielded => ret (list_to_set yielded))
                        (log_all [QGetReturnAnnotation (access_handle self);
                                  QGetattrPaths (access_handle self) "__call__";
                                  QIsClass (access_handle self)] st)).
  { unfold py__call__, bind at 1, ask at 1. rewrite Hann.
    unfold try_except_AttributeError, ask_getattr_paths. rewrite Hcall.
    unfold bind at 1, ask at 1. by rewrite Hcls. }
  rewrite Hrun. clear Hrun.
  unfold _execute_function, bind, ask, asked, log_all. simpl.
  set (st0 := log (QGetApiType _) _).
  split.
  - intros ->. simpl.
    unfold call_union, docstring_values, bind, ret.
    destruct (_parse_function_doc rt self st0) as [[parsed|e] st1]; [|done].
    rewrite mapM_execute_builtin.
    destruct (mapM (builtin_hit rt eng arguments) _ st1) as [[sets|e] st2];
      simpl; [|done].
    destruct (infer_return_types eng self st2) as [[types|e] st3]; [|done].
    do 2 f_equal.
    by rewrite list_to_set_app_L, list_to_set_concat_elements,
      list_to_set_elements_L.
  - intros Hne. apply String.eqb_neq in Hne. by rewrite Hne.
Qed.

End ProjectionFacts.

(** ** The filter *)

Section FilterFacts.

Import Compiled.

Variable rt : Runtime.
Variable eng : Engine.

Lemma str_in_spec name names : str_in name names = true <-> name ∈ names.
Proof.
  unfold str_in. rewrite existsb_exists. split.
  - intros (x & Hx & ->%String.eqb_eq). by apply list_elem_of_In.
  - intros H. exists name. split; [by apply list_elem_of_In|].
    apply String.eqb_refl.
Qed.

(** The remaining case of [get]: a name that is allowed and not blocked as a
    descriptor gives one [CompiledName], except in an instance view whose
    directory does not list it. *)
Lemma filter_get_visible self name st is_descriptor :
  let h := access_handle (compiled_object self) in
  let asked := log (QIsAllowedGetattr h name) st in
  is_allowed_getattr rt h name = (true, is_descriptor) ->
  is_descriptor && negb (allow_descriptor_getattr st) = false ->
  get rt self name st
  = if is_instance self then
      (if bool_decide (name ∈ dir rt h)
       then Ok [CompiledName (compiled_object self) name] else Ok [],
       log (QDir h) asked)
    else (Ok [CompiledName (compiled_object self) name], asked).
Proof.
  simpl. intros H Hdesc. unfold get, _get, bind, ask, force_unicode.
  rewrite H. simpl. rewrite Hdesc. simpl. destruct (is_instance self); [|done].
  case_bool_decide as Hin.
  - apply str_in_spec in Hin. by rewrite Hin.
  - destruct (str_in name _) eqn:Hs; [|done].
    by apply str_in_spec in Hs.
Qed.

(** C5: through [get], a name the handle reports as disallowed gives the
    empty list; a name that is allowed and a descriptor, with descriptor
    access configured off, gives exactly one [EmptyCompiledName]; and the
    [infer] of an [EmptyCompiledName] returns the empty value set from every
    state, leaving the state as it was. *)
Theorem filter_get_blocked self name st :
  let h := access_handle (compiled_object self) in
  let asked := log (QIsAllowedGetattr h name) st in
  (fst (is_allowed_getattr rt h name) = false ->
   get rt self name st = (Ok [], asked)) /\
  (is_allowed_getattr rt h name = (true, true) ->
   allow_descriptor_getattr st = false ->
   get rt self name st = (Ok [EmptyCompiledName name], asked)) /\
  (forall n st', EmptyCompiledName_infer n st' = (Ok ∅, st')).
Proof.
  simpl. split; [|split].
  - intros H. unfold get, _get, bind, ask. by rewrite H.
  - intros H Hallow. unfold get, _get, bind, ask. rewrite H. simpl.
    by rewrite Hallow.
  - done.
Qed.

(** A key of [dir_infos] gives exactly one name, which carries the key. *)
Lemma _get_dir_key self (dir_infos : gmap string (bool * bool)) name info
    keys st :
  dir_infos !! name = Some info -> name ∈ keys ->
  exists n,
    _get self name
         (match dir_infos !! name with
          | Some info => ret info
          | None => raise KeyError
          end)
         (ret keys) false st
    = (Ok [n], st) /\ string_name n = name.
Proof.
  intros -> Hin%str_in_spec. unfold _get, bind, ret, force_unicode. simpl.
  destruct (_ || _).
  - by eexists.
  - destruct (is_instance self); simpl; [rewrite Hin; simpl|]; by eexists.
Qed.

Lemma dir_names_loop self (dir_infos : gmap string (bool * bool)) keys todo
    st :
  (forall name, name ∈ todo ->
     name ∈ keys /\ exists info, dir_infos !! name = Some info) ->
  exists found,
    mapM (fun name =>
            _get self name
                 (match dir_infos !! name with
                  | Some info => ret info
                  | None => raise KeyError
                  end)
                 (ret keys) false) todo st
    = (Ok found, st) /\
    map string_name (concat found) = todo.
Proof.
  induction todo as [|name todo IH]; intros Htodo.
  - by exists [].
  - destruct (Htodo name) as [Hin [info Hinfo]]; [by left|].
    destruct (_get_dir_key self dir_infos name info keys st Hinfo Hin)
      as (n & Hn & Hname).
    destruct IH as (found & Hfound & Hnames).
    { intros x Hx. apply Htodo. by right. }
    exists ([n] :: found). simpl. unfold bind at 1. rewrite Hn.
    unfold bind at 1. rewrite Hfound. simpl. by rewrite Hname, Hnames.
Qed.

Lemma dir_names_spec self (dir_infos : gmap string (bool * bool)) st :
  exists own,
    dir_names self dir_infos st = (Ok own, st) /\
    map string_name own = map fst (map_to_list dir_infos).
Proof.
  unfold dir_names.
  destruct (dir_names_loop self dir_infos (map fst (map_to_list dir_infos))
              (map fst (map_to_list dir_infos)) st)
    as (found & Hfound & Hnames).
  { intros name Hin. split; [done|].
    apply list_elem_of_fmap in Hin as ((k & info) & -> & Hin).
    exists info. by apply elem_of_map_to_list. }
  exists (concat found). unfold bind. by rewrite Hfound.
Qed.

(** C6 (amended): the names [values] makes from the directory of the handle
    carry the keys of the directory, one name per key, so no two of them have
    the same string name; they are all of the result for an instance view
    and when type-level completions are not signalled; otherwise the names of
    the filters of the built-in [type] are appended to them as they are. *)
Theorem values_names self st :
  let h := access_handle (compiled_object self) in
  let infos := get_dir_infos rt h in
  let asked := log (QGetDirInfos h) st in
  exists own,
    dir_names self (snd infos) asked = (Ok own, asked) /\
    map string_name own = map fst (map_to_list (snd infos)) /\
    NoDup (map string_name own) /\
    (is_instance self = true \/ fst infos = false ->
     values rt eng self st = (Ok own, asked)) /\
    (is_instance self = false -> fst infos = true ->
     values rt eng self st
     = bind (builtin_from_name eng "type") (fun type_value =>
         bind (filters_values eng type_value) (fun per_filter =>
           ret (own ++ concat per_filter))) asked).
Proof.
  simpl.
  destruct (dir_names_spec self
              (snd (get_dir_infos rt (access_handle (compiled_object self))))
              (log (QGetDirInfos (access_handle (compiled_object self))) st))
    as (own & Hown & Hnames).
  exists own. split; [done|]. split; [done|].
  split; [rewrite Hnames; apply NoDup_fst_map_to_list|].
  split.
  - intros Hcase. unfold values, bind at 1, ask. unfold bind at 1.
    rewrite Hown.
    destruct Hcase as [-> | ->]; simpl; [done|]. by rewrite andb_false_r.
  - intros Hinst Hneeds. unfold values, bind at 1, ask. unfold bind at 1.
    rewrite Hown, Hinst, Hneeds. done.
Qed.

End FilterFacts.

(** ** The sample runtime *)

Section SampleFacts.

Import Compiled.

Local Open Scope string_scope.

(** The objects the examples call are the ones the creation layer makes. *)
Lemma self_of_created :
  Forall (fun h =>
            fst (create_from_access_path (Sample.builtin_path "x" h) Sample.st0)
            = Some (Sample.self_of h))
         [1; 4; 5; 6].
Proof. repeat constructor. Qed.

Lemma cache_sound_st_of h : cache_sound (Sample.st_of h).
Proof.
  unfold Sample.st_of, create_from_access_path.
  apply create_from_sound, cache_sound_new.
Qed.



(** The MRO of [int] in the sample: [int] itself, then [object]. *)
Example py__mro__of_int :
  fst (py__mro__ Sample.rt (Sample.self_of 1) (Sample.st_of 1))
  = Ok [Some (Sample.self_of 1);
        Some {| obj_id := 2; access_handle := 7; parent_value := Some 0 |}].
Proof. vm_compute. reflexivity. Qed.

Lemma py__call__annotation_witness :
  let self := Sample.self_of 4 in
  let st := Sample.st_of 4 in
  let asked := log (QGetReturnAnnotation 4) st in
  let created := create_from_access_path (Sample.builtin_path "str" 2) asked in
  (exists o,
      fst created = Some o /\ access_handle o = 2 /\
      py__call__ Sample.rt Sample.eng self 0 st
      = execute_annotation Sample.eng o (snd created)) /\
  queries (snd created) = (queries st ++ [QGetReturnAnnotation 4])%list /\
  py__call__ Sample2.rt Sample.eng self 0 st
  = py__call__ Sample.rt Sample.eng self 0 st.
Proof.
  intros self st asked created.
  destruct (py__call__annotation Sample.rt Sample.eng self 0 st
              (Sample.builtin_path "str" 2) eq_refl)
    as (Hcall & Hshape & Hqueries & Hwins).
  destruct (Hshape (cache_sound_st_of 4) "str"%string 2 eq_refl)
    as (o & Ho & Hhandle).
  fold asked in Ho. fold created in Ho.
  split; [|split].
  - exists o. split; [exact Ho|]. split; [exact Hhandle|].
    rewrite Hcall. fold asked. fold created. by rewrite Ho.
  - exact Hqueries.
  - apply Hwins. reflexivity.
Defined.

(** The annotation wins over the doc: the function of handle 4 is annotated
    to return [str] and documented to return [int]; its call gives an
    instance of [str], where the union built from the doc gives an instance
    of [int]. *)
Example annotation_beats_doc :
  rmap elements
       (fst (py__call__ Sample.rt Sample.eng (Sample.self_of 4) 0
               (Sample.st_of 4)))
  = Ok [VCompiledInstance None
          {| obj_id := 2; access_handle := 2; parent_value := Some 0 |} 0]
  /\
  rmap elements
       (fst (call_union Sample.rt Sample.eng (Sample.self_of 4) 0
               (Sample.st_of 4)))
  = Ok [VCompiledInstance None
          {| obj_id := 2; access_handle := 1; parent_value := Some 0 |} 0]
  /\
  queries (snd (py__call__ Sample.rt Sample.eng (Sample.self_of 4) 0
                  (Sample.st_of 4)))
  = [QGetReturnAnnotation 4].
Proof. split; [|split]; vm_compute; reflexivity. Qed.

(** C7, as stated, fails: the object of handle 5 has no return annotation,
    exposes [__call__] and is not a class, and its doc names the built-in
    [int]; its kind is [instance], so [_execute_function] returns at once and
    the call gives the empty set, not the union, which holds an instance of
    [int]. *)
Lemma call_of_callable_instance :
  let self := Sample.self_of 5 in
  let st := Sample.st_of 5 in
  let asked :=
    log_all [QGetReturnAnnotation 5; QGetattrPaths 5 "__call__"; QIsClass 5;
             QGetApiType 5] st in
  ~ (get_return_annotation Sample.rt 5 = None ->
     getattr_paths Sample.rt 5 "__call__" = Some [] ->
     is_class Sample.rt 5 = false ->
     py__call__ Sample.rt Sample.eng self 0 st
     = call_union Sample.rt Sample.eng self 0 asked).
Proof.
  intros self st asked H. specialize (H eq_refl eq_refl eq_refl).
  apply (f_equal (fun out => rmap elements (fst out))) in H.
  vm_compute in H. discriminate H.
Qed.

Lemma py__call__function_union_witness :
  (py__call__ Sample.rt Sample.eng (Sample.self_of 6) 0 (Sample.st_of 6)
   = call_union Sample.rt Sample.eng (Sample.self_of 6) 0
       (log_all [QGetReturnAnnotation 6; QGetattrPaths 6 "__call__";
                 QIsClass 6; QGetApiType 6] (Sample.st_of 6))) /\
  (py__call__ Sample.rt Sample.eng (Sample.self_of 5) 0 (Sample.st_of 5)
   = (Ok ∅,
      log_all [QGetReturnAnnotation 5; QGetattrPaths 5 "__call__";
               QIsClass 5; QGetApiType 5] (Sample.st_of 5))).
Proof.
  split.
  - apply (py__call__function_union Sample.rt Sample.eng (Sample.self_of 6) 0
             (Sample.st_of 6) []); reflexivity.
  - apply (py__call__function_union Sample.rt Sample.eng (Sample.self_of 5) 0
             (Sample.st_of 5) []); try reflexivity. discriminate.
Defined.

(** The call of the function of handle 6: the doc names [int], which is a
    built-in, and the call gives an instance of it. *)
Example call_of_documented_function :
  rmap elements
       (fst (py__call__ Sample.rt Sample.eng (Sample.self_of 6) 0
               (Sample.st_of 6)))
  = Ok [VCompiledInstance None
          {| obj_id := 2; access_handle := 1; parent_value := Some 0 |} 0].
Proof. vm_compute. reflexivity. Qed.

Lemma filter_get_blocked_witness :
  let self := {| compiled_object := Sample.self_of 1; is_instance := false |} in
  get Sample.rt self "nope" (Sample.st_of 1)
  = (Ok [], log (QIsAllowedGetattr 1 "nope") (Sample.st_of 1)) /\
  get Sample.rt self "real" (Sample.st_of 1)
  = (Ok [EmptyCompiledName "real"],
     log (QIsAllowedGetattr 1 "real") (Sample.st_of 1)) /\
  EmptyCompiledName_infer "real" (Sample.st_of 1) = (Ok ∅, Sample.st_of 1).
Proof.
  intros self. split; [|split].
  - apply (filter_get_blocked Sample.rt self "nope" (Sample.st_of 1)).
    reflexivity.
  - apply (filter_get_blocked Sample.rt self "real" (Sample.st_of 1));
      reflexivity.
  - apply (filter_get_blocked Sample.rt self "real" (Sample.st_of 1)).
Defined.

(** C6, as stated, fails: for the class [int] of the sample, a view that is
    not an instance view, the handle signals type-level completions, and
    [values] returns the name [__doc__] twice, once for [int] and once from
    the filter of the built-in [type]. *)
Lemma values_repeats_type_names :
  let self := {| compiled_object := Sample.self_of 1; is_instance := false |} in
  exists names,
    fst (values Sample.rt Sample.eng self (Sample.st_of 1)) = Ok names /\
    ~ NoDup (map string_name names).
Proof.
  intros self. eexists. split; [vm_compute; reflexivity|].
  simpl. intros Hnd. apply NoDup_cons in Hnd as [Hnot _]. apply Hnot.
  right. by left.
Qed.

Lemma values_names_witness :
  let inst := {| compiled_object := Sample.self_of 1; is_instance := true |} in
  let cls := {| compiled_object := Sample.self_of 1; is_instance := false |} in
  let asked := log (QGetDirInfos 1) (Sample.st_of 1) in
  (exists own,
      values Sample.rt Sample.eng inst (Sample.st_of 1) = (Ok own, asked) /\
      NoDup (map string_name own)) /\
  (exists own,
      NoDup (map string_name own) /\
      values Sample.rt Sample.eng cls (Sample.st_of 1)
      = bind (builtin_from_name Sample.eng "type") (fun type_value =>
          bind (filters_values Sample.eng type_value) (fun per_filter =>
            ret (own ++ concat per_filter)%list)) asked).
Proof.
  intros inst cls asked. split.
  - destruct (values_names Sample.rt Sample.eng inst (Sample.st_of 1))
      as (own & _ & _ & Hnd & Hinst & _).
    exists own. split; [|done]. apply Hinst. by left.
  - destruct (values_names Sample.rt Sample.eng cls (Sample.st_of 1))
      as (own & _ & _ & Hnd & _ & Hcls).
    exists own. split; [done|]. by apply Hcls.
Defined.

End SampleFacts.

(** * Further properties *)

(** ** The documentation parser: failures, hyphens, brackets *)

Section DocMore.

Import Doc.

Lemma match_ret_run_nil s :
  match_ret_run s = [] <->
  match s with
  | [] => True
  | c :: _ => c = newline \/ c = "-"%char
  end.
Proof.
  destruct s as [|c t]; simpl; [done|].
  destruct (Ascii.eqb c newline) eqn:E1; simpl.
  - apply Ascii.eqb_eq in E1 as ->.
    destruct t as [|c2 t2]. { split; auto. }
    replace (Ascii.eqb newline ",") with false by reflexivity. simpl.
    split; auto.
  - apply Ascii.eqb_neq in E1.
    destruct (Ascii.eqb c "-") eqn:E2; simpl.
    + apply Ascii.eqb_eq in E2 as ->.
      destruct t as [|c2 t2]; [split; auto|]. simpl. split; auto.
    + apply Ascii.eqb_neq in E2.
      assert (Hno : ~ (c = newline \/ c = "-"%char)) by (intros [?|?]; done).
      destruct t as [|c2 t2]; [split; done|]. destruct (_ && _); split; done.
Qed.

Lemma parse_from_search_start doc :
  exists param_str,
    parse_function_doc doc =
    match arrow_end doc with
    | None => Ok (param_str, [])
    | Some index =>
        rbind (match_ret doc index) (fun g =>
          Ok (param_str, docstr_defaults_get (sub_new (strip g))))
    end.
Proof.
  unfold parse_function_doc, arrow_end, return_search_start.
  destruct (find_params doc) as [[end_ param_str]|e] eqn:Hf.
  - simpl. eexists. destruct (search_arrow_end _); simpl; reflexivity.
  - exists []. apply find_params_raises in Hf as [-> | ->]; simpl;
      destruct (search_arrow_end _); simpl; reflexivity.
Qed.

(** X1: the parser raises exactly when an arrow marker is found and no return
    text follows it, and the exception is then [AttributeError]. *)
Theorem parse_doc_raises_exactly (doc : string) (e : Exn) :
  _parse_function_doc doc = Raise e <->
  e = AttributeError /\ dangling_arrow (list_ascii_of_string doc).
Proof.
  unfold _parse_function_doc, dangling_arrow.
  destruct (parse_from_search_start (list_ascii_of_string doc))
    as [param_str ->].
  destruct (arrow_end (list_ascii_of_string doc)) as [index|]; simpl.
  - unfold match_ret.
    pose proof (match_ret_run_nil (drop index (list_ascii_of_string doc)))
      as Hnil.
    destruct (match_ret_run _) as [|c g]; simpl.
    + split.
      * intros [= <-]. split; [done|]. exists index. split; [done|].
        by apply Hnil.
      * by intros [-> _].
    + split; [done|]. intros [_ (i & [= <-] & Hd)]. by apply Hnil in Hd.
  - split; [done|]. by intros [_ (i & [=] & _)].
Qed.

(** *** No hyphen comes out *)

Lemma span_elem p s a b c :
  span p s = (a, b) -> c ∈ a \/ c ∈ b -> c ∈ s.
Proof.
  intros H%span_spec. destruct H as (-> & _ & _). rewrite elem_of_app. tauto.
Qed.

Lemma elem_of_rev (c : ascii) (l : list ascii) : c ∈ rev l <-> c ∈ l.
Proof. rewrite !list_elem_of_In. symmetry. apply in_rev. Qed.

Lemma span_snd_elem p s c : c ∈ snd (span p s) -> c ∈ s.
Proof.
  destruct (span p s) as [a b] eqn:Hs. simpl. intros H.
  eapply span_elem; [exact Hs|]. by right.
Qed.

Lemma strip_elem c s : c ∈ strip s -> c ∈ s.
Proof.
  unfold strip, lstrip. intros H.
  apply (proj1 (elem_of_rev _ _)) in H. apply span_snd_elem in H.
  apply (proj1 (elem_of_rev _ _)) in H. by apply span_snd_elem in H.
Qed.

Lemma match_ret_run_elem c s : c ∈ match_ret_run s -> c ∈ s /\ c <> "-"%char.
Proof.
  remember (length s) as n eqn:Hn. revert s Hn.
  induction n as [n IH] using lt_wf_ind. intros [|x t] Hn; simpl.
  - by intros ?%elem_of_nil.
  - assert (Hsingle :
      c ∈ (if negb (Ascii.eqb x newline || Ascii.eqb x "-")
           then x :: match_ret_run t else []) ->
      c ∈ x :: t /\ c <> "-"%char).
    { destruct (Ascii.eqb x newline) eqn:E1; simpl;
        [by intros ?%elem_of_nil|].
      destruct (Ascii.eqb x "-") eqn:E2; simpl; [by intros ?%elem_of_nil|].
      apply Ascii.eqb_neq in E2.
      intros [->|H]%elem_of_cons; [split; [by left|done]|].
      apply (IH (length t)) in H as [H1 H2]; [|simpl in Hn; lia|done].
      split; [by right|done]. }
    destruct t as [|x2 t2]; [done|].
    destruct (Ascii.eqb x "," && Ascii.eqb x2 newline) eqn:E; [|done].
    apply andb_prop in E as [->%Ascii.eqb_eq ->%Ascii.eqb_eq].
    intros [->|[->|H]%elem_of_cons]%elem_of_cons.
    + split; [by left|done].
    + split; [right; by left|done].
    + apply (IH (length t2)) in H as [H1 H2]; [|simpl in Hn; lia|done].
      split; [by do 2 right|done].
Qed.

Lemma match_new_elem s g rest c :
  match_new s = Some (g, rest) -> c ∈ g \/ c ∈ rest -> c ∈ s.
Proof.
  unfold match_new. destruct s as [|n [|e [|w [|sp t]]]]; try done.
  destruct (_ && _); [|done].
  destruct (span _ t) as [a b] eqn:Hs. intros [= <- <-] H.
  do 4 right. by eapply span_elem.
Qed.

Lemma sub_new_from_no_hyphen n s :
  "-"%char ∉ s -> "-"%char ∉ sub_new_from n s.
Proof.
  revert s. induction n as [|n IH]; intros s Hs; simpl; [done|].
  destruct (match_new s) as [[g rest]|] eqn:Hm.
  - rewrite elem_of_app, !elem_of_cons. intros [H|[H|[H|H]]].
    + apply Hs. eapply match_new_elem; eauto.
    + discriminate H.
    + discriminate H.
    + revert H. apply IH. intros H. apply Hs. eapply match_new_elem; eauto.
  - destruct s as [|c t]; [done|].
    intros [Heq|H]%elem_of_cons; [apply Hs; subst c; by left|].
    revert H. apply IH. intros H. apply Hs. by right.
Qed.

Lemma docstr_defaults_get_no_hyphen r :
  "-"%char ∉ r -> "-"%char ∉ docstr_defaults_get r.
Proof.
  intros Hr. unfold docstr_defaults_get.
  destruct (find _ docstr_defaults) as [kv|] eqn:Hf; [|done].
  apply find_some in Hf as [Hin _].
  intros H. apply list_elem_of_In in H.
  simpl in Hin. repeat (destruct Hin as [<-|Hin]; [simpl in H; intuition discriminate|]).
  done.
Qed.

Lemma replace_hyphens_no_hyphen s : "-"%char ∉ replace_hyphens s.
Proof.
  unfold replace_hyphens. intros (c & Hc & _)%list_elem_of_fmap.
  destruct (Ascii.eqb_spec c "-"); [discriminate Hc|]. by subst.
Qed.

(** X2: neither string the parser returns holds a hyphen: the hyphens of the
    parameter string become underscores, and the return text stops before
    one. *)
Theorem parse_doc_no_hyphen (doc p r : string) :
  _parse_function_doc doc = Ok (p, r) ->
  ("-"%char ∉ list_ascii_of_string p) /\
  ("-"%char ∉ list_ascii_of_string r).
Proof.
  unfold _parse_function_doc, parse_function_doc.
  set (found := match find_params (list_ascii_of_string doc) with
                | Ok (end_, param_str) =>
                    Ok (end_, strip_optionals param_str)
                | Raise ValueError | Raise UnboundLocalError => Ok (0, [])
                | Raise e => Raise e
                end).
  destruct found as [[end_ param_str]|e]; simpl; [|done].
  destruct (search_arrow_end _) as [r_end|]; simpl.
  - unfold match_ret.
    destruct (match_ret_run _) as [|c g] eqn:Hg; simpl; [done|].
    intros [= <- <-]. rewrite !list_ascii_of_string_of_list_ascii.
    split; [apply replace_hyphens_no_hyphen|].
    apply docstr_defaults_get_no_hyphen, sub_new_from_no_hyphen.
    intros H%strip_elem. rewrite <- Hg in H.
    by apply match_ret_run_elem in H as [_ ?].
  - intros [= <- <-]. rewrite !list_ascii_of_string_of_list_ascii.
    split; [apply replace_hyphens_no_hyphen|]. by intros ?%elem_of_nil.
Qed.

Lemma parse_doc_no_hyphen_witness :
  ("-"%char ∉ list_ascii_of_string "a_b") /\
  ("-"%char ∉ list_ascii_of_string "int").
Proof.
  apply (parse_doc_no_hyphen "f(a-b) -> integer - more" "a_b" "int").
  vm_compute. reflexivity.
Defined.

(** *** The loop over the optional brackets *)

Lemma strip_optionals_from_count fuel s :
  count_open (strip_optionals_from fuel s) <= count_open s.
Proof.
  revert s. induction fuel as [|fuel IH]; intros s; simpl; [done|].
  destruct (subn_optional s) as [s' changes] eqn:Hs.
  unfold subn_optional in Hs. apply subn_optional_count in Hs; [|lia].
  destruct (changes =? 0); [lia|]. etrans; [apply IH|lia].
Qed.

(** X3: the loop that strips the optional brackets is left with a string in
    which no bracket group is found, never with more opening brackets than it
    was given, and a string without a bracket group comes out as it went
    in. *)
Theorem strip_optionals_no_group_left (s : str) :
  snd (subn_optional (strip_optionals s)) = 0 /\
  count_open (strip_optionals s) <= count_open s /\
  (snd (subn_optional s) = 0 -> strip_optionals s = s).
Proof.
  split; [apply strip_optionals_fixed|].
  split; [apply strip_optionals_from_count|].
  unfold strip_optionals. simpl.
  destruct (subn_optional s) as [s' changes] eqn:Hs. simpl.
  intros ->. simpl. unfold subn_optional in Hs.
  by apply subn_optional_unchanged in Hs.
Qed.

Lemma strip_optionals_no_group_left_witness :
  strip_optionals (list_ascii_of_string "a, (b, c)")
  = list_ascii_of_string "a, (b, c)".
Proof.
  apply (strip_optionals_no_group_left (list_ascii_of_string "a, (b, c)")).
  reflexivity.
Defined.

(** *** Splitting and joining *)

Lemma split_on_nonempty sep s : split_on sep s <> [].
Proof.
  destruct s as [|c t]; simpl; [done|].
  destruct (split_on sep t); [done|]. by destruct (Ascii.eqb c sep).
Qed.

Lemma join_split_on sep s : join [sep] (split_on sep s) = s.
Proof.
  induction s as [|c t IH]; simpl; [done|].
  destruct (split_on sep t) as [|f fs] eqn:Hs;
    [by apply split_on_nonempty in Hs|].
  destruct (Ascii.eqb_spec c sep) as [->|Hne].
  - simpl. by rewrite <- IH.
  - rewrite <- IH. simpl. by destruct fs.
Qed.

Lemma split_on_fields sep s : Forall (fun f => sep ∉ f) (split_on sep s).
Proof.
  induction s as [|c t IH]; simpl.
  - constructor; [|done]. by intros ?%elem_of_nil.
  - destruct (split_on sep t) as [|f fs] eqn:Hs;
      [by apply split_on_nonempty in Hs|].
    inversion IH as [|? ? Hf Hfs]; subst.
    destruct (Ascii.eqb_spec c sep) as [->|Hne].
    + constructor; [by intros ?%elem_of_nil|by constructor].
    + constructor; [|done].
      intros [Heq|H]%elem_of_cons; [by subst|done].
Qed.

Lemma split_on_app sep p rest :
  sep ∉ p -> split_on sep (p ++ sep :: rest) = p :: split_on sep rest.
Proof.
  induction p as [|c p IH]; intros Hp; simpl.
  - destruct (split_on sep rest) as [|f fs] eqn:Hs;
      [by apply split_on_nonempty in Hs|].
    by rewrite Ascii.eqb_refl.
  - rewrite IH; [|intros H; apply Hp; by right].
    destruct (Ascii.eqb_spec c sep) as [->|Hne]; [|done].
    exfalso. apply Hp. by left.
Qed.

Lemma split_on_whole sep s : sep ∉ s -> split_on sep s = [s].
Proof.
  induction s as [|c s IH]; intros Hs; simpl; [done|].
  rewrite IH; [|intros H; apply Hs; by right].
  destruct (Ascii.eqb_spec c sep) as [->|Hne]; [|done].
  exfalso. apply Hs. by left.
Qed.

Lemma split_on_join sep parts :
  parts <> [] -> Forall (fun f => sep ∉ f) parts ->
  split_on sep (join [sep] parts) = parts.
Proof.
  intros Hne Hall. induction Hall as [|p ps Hp Hps IH]; [done|].
  destruct ps as [|q ps]; simpl.
  - by apply split_on_whole.
  - rewrite split_on_app by done. f_equal. by apply IH.
Qed.

Lemma contains_spec c s : contains c s = true <-> c ∈ s.
Proof.
  unfold contains. rewrite existsb_exists. split.
  - intros (x & Hx & ->%Ascii.eqb_eq). by apply list_elem_of_In.
  - intros H. exists c. split; [by apply list_elem_of_In|].
    apply Ascii.eqb_refl.
Qed.

(** X4: [change_options] keeps the comma-separated fields of the group apart:
    splitting its result on commas gives one field per field of the group, a
    field that is empty or already holds an equals sign unchanged, and every
    field of the result is empty or holds an equals sign. *)
Theorem change_options_fields (group1 : str) :
  Forall2 (fun a b =>
             (a = [] \/ contains "=" a = true -> b = a) /\
             (b = [] \/ contains "=" b = true) /\
             a `prefix_of` b)
          (split_on "," group1)
          (split_on "," (change_options group1)).
Proof.
  unfold change_options.
  set (rewrite_arg := fun a : str =>
         match a with
         | [] => a
         | _ :: _ => if contains "=" a then a else a ++ str_None
         end).
  pose proof (split_on_fields "," group1) as Hfields.
  rewrite split_on_join.
  - apply Forall2_fmap_r, Forall_Forall2_diag.
    eapply Forall_impl; [exact Hfields|]. intros a _.
    unfold compose, rewrite_arg. cbv beta.
    destruct a as [|c a]; [by auto|].
    destruct (contains "=" (c :: a)) eqn:Hc.
    + split; [done|]. split; [by right|done].
    + split; [by intros [?|?]|]. split; [|by apply prefix_app_r].
      right. apply contains_spec, elem_of_app. right.
      apply contains_spec. reflexivity.
  - intros Hnil%fmap_nil_inv. by apply split_on_nonempty in Hnil.
  - apply Forall_fmap. eapply Forall_impl; [exact Hfields|].
    intros a Ha. unfold rewrite_arg. simpl. destruct a as [|c a]; [done|].
    destruct (contains "=" (c :: a)); [done|].
    rewrite elem_of_app. intros [H|H]; [done|].
    apply contains_spec in H. discriminate H.
Qed.

End DocMore.

(** ** Names of modules and of parameters *)

Section ObjectFacts.

Import Compiled Object.

Variable rt : Runtime.
Variable an : Answers.

Lemma string_of_list_ascii_app (a b : Doc.str) :
  string_of_list_ascii (a ++ b)
  = (string_of_list_ascii a ++ string_of_list_ascii b)%string.
Proof. induction a as [|c a IH]; simpl; [done|]. by rewrite IH. Qed.

Lemma concat_join sep parts :
  String.concat (String sep EmptyString) (map string_of_list_ascii parts)
  = string_of_list_ascii (Doc.join [sep] parts).
Proof.
  induction parts as [|p ps IH]; [done|]. simpl.
  destruct ps as [|q ps]; [done|].
  rewrite string_of_list_ascii_app. simpl in *. by rewrite IH.
Qed.

(** X5: for an object with a name, [string_names] is never empty, its parts
    hold no dot, and joined with dots they give the name back. *)
Theorem string_names_join self name :
  access_py__name__ an (access_handle self) = Some name ->
  string_names an self <> [] /\
  String.concat "." (string_names an self) = name /\
  Forall (fun part => "."%char ∉ list_ascii_of_string part)
         (string_names an self).
Proof.
  intros H. unfold string_names. rewrite H. split; [|split].
  - intros Hnil%fmap_nil_inv. by apply split_on_nonempty in Hnil.
  - rewrite concat_join, join_split_on.
    apply string_of_list_ascii_of_string.
  - apply Forall_fmap. eapply Forall_impl; [apply split_on_fields|].
    intros part Hpart. simpl. by rewrite list_ascii_of_string_of_list_ascii.
Qed.

Lemma partition_spec sep s a m b :
  partition sep s = (a, m, b) ->
  (sep ∉ a) /\
  ((m = [] /\ b = [] /\ s = a) \/ (m = [sep] /\ s = a ++ sep :: b)).
Proof.
  revert a m b. induction s as [|c t IH]; intros a m b; simpl.
  - intros [= <- <- <-]. split; [by intros ?%elem_of_nil|by left].
  - destruct (Ascii.eqb_spec c sep) as [->|Hne].
    + intros [= <- <- <-]. split; [by intros ?%elem_of_nil|by right].
    + destruct (partition sep t) as [[a' m'] b'] eqn:Hp.
      intros [= <- <- <-]. destruct (IH _ _ _ eq_refl) as [Ha Hcases].
      split.
      * intros [Heq|H]%elem_of_cons; [by subst|done].
      * destruct Hcases as [(-> & -> & ->)|(-> & ->)]; [by left|by right].
Qed.

Lemma string_of_list_ascii_nil (l : Doc.str) :
  string_of_list_ascii l = EmptyString <-> l = [].
Proof. by destruct l. Qed.

(** X6: the parameter name made from a token of the parsed doc has a string
    name without equals sign; rendered with [to_string] it is the stripped
    token again, except that an equals sign with nothing after it is
    dropped. *)
Theorem unresolvable_to_string_roundtrip self (p : Doc.str) :
  exists n d,
    unresolvable_of_token self p
    = UnresolvableParamName (parent_value self) n d /\
    ("="%char ∉ list_ascii_of_string n) /\
    (d <> EmptyString ->
     UnresolvableParamName_to_string n d
     = string_of_list_ascii (Doc.strip p)) /\
    (d = EmptyString ->
     UnresolvableParamName_to_string n d = n /\
     (string_of_list_ascii (Doc.strip p) = n \/
      string_of_list_ascii (Doc.strip p) = (n ++ "=")%string)).
Proof.
  unfold unresolvable_of_token.
  destruct (partition "=" (Doc.strip p)) as [[a m] b] eqn:Hp.
  apply partition_spec in Hp as [Ha Hcases].
  exists (string_of_list_ascii a), (string_of_list_ascii b).
  split; [done|]. split; [by rewrite list_ascii_of_string_of_list_ascii|].
  split.
  - intros Hd. destruct Hcases as [(_ & -> & _)|(_ & ->)]; [done|].
    unfold UnresolvableParamName_to_string.
    destruct (string_of_list_ascii b) eqn:Hb; [done|]. rewrite <- Hb.
    by rewrite string_of_list_ascii_app.
  - intros Hd. unfold UnresolvableParamName_to_string. rewrite Hd.
    split; [done|]. apply string_of_list_ascii_nil in Hd as ->.
    destruct Hcases as [(_ & _ & ->)|(_ & ->)]; [by left|right].
    by rewrite string_of_list_ascii_app.
Qed.

Lemma split_on_length sep s :
  length (Doc.split_on sep s) = S (count_char sep s).
Proof.
  unfold count_char. induction s as [|c t IH]; [done|]. simpl.
  destruct (Doc.split_on sep t) as [|f fs] eqn:Hs;
    [by apply split_on_nonempty in Hs|].
  rewrite (Ascii.eqb_sym sep c).
  destruct (Ascii.eqb c sep); simpl in *; lia.
Qed.

(** X7: with a signature, [get_param_names] gives one name per parameter
    descriptor and leaves the inference state as it was, so the doc is not
    asked for.  Without one it gives, after a leading [self] for a method
    descriptor, one unresolvable name per comma-separated field of the parsed
    parameter string, none for the empty string: the fields have no comma and
    joined with commas they are the parameter string; the name of a field is
    its stripped text up to the first equals sign, and its default the text
    after that sign. *)
Theorem get_param_names_cases self st :
  let h := access_handle self in
  let parent := parent_value self in
  (forall signature_params,
      access_get_signature_params an h = Some signature_params ->
      get_param_names rt an self st
      = (Ok (map (SignatureParamName parent) signature_params), st)) /\
  (access_get_signature_params an h = None ->
   forall params ret_ st',
     _parse_function_doc rt self st = (Ok (params, ret_), st') ->
     exists fields names,
       get_param_names rt an self st
       = (Ok ((if access_ismethoddescriptor an h
               then [UnresolvableParamName parent "self" ""]
               else []) ++ names)%list,
          st') /\
       (params = EmptyString -> fields = []) /\
       (params <> EmptyString ->
        fields <> [] /\
        Doc.join [","%char] fields = list_ascii_of_string params) /\
       Forall (fun field => ","%char ∉ field) fields /\
       Forall2 (fun field param_name =>
                  exists n d,
                    param_name
                    = UnresolvableParamName parent (string_of_list_ascii n)
                                            (string_of_list_ascii d) /\
                    ("="%char ∉ n) /\
                    (Doc.strip field = (n ++ "="%char :: d)%list \/
                     (Doc.strip field = n /\ d = [])))
               fields names).
Proof.
  simpl. split.
  - intros sps H. unfold get_param_names. by rewrite H.
  - intros H params ret_ st' Hparsed. unfold get_param_names, bind.
    rewrite H, Hparsed.
    set (fields := match params with
                   | EmptyString => []
                   | _ => Doc.split_on "," (list_ascii_of_string params)
                   end).
    exists fields, (map (unresolvable_of_token self) fields).
    split; [|split; [|split; [|split]]].
    + unfold ret, doc_tokens. simpl. fold fields.
      destruct (access_ismethoddescriptor an (access_handle self));
        reflexivity.
    + intros Hparams. unfold fields. by rewrite Hparams.
    + intros Hparams. unfold fields.
      destruct params as [|c params]; [done|].
      split; [apply split_on_nonempty|apply join_split_on].
    + unfold fields. destruct params; [constructor|apply split_on_fields].
    + apply Forall2_fmap_r, Forall_Forall2_diag, Forall_forall.
      intros field _. unfold compose, unresolvable_of_token. cbv beta.
      destruct (partition "=" (Doc.strip field)) as [[n m] d] eqn:Hp.
      apply partition_spec in Hp as [Hn Hcases].
      exists n, d. split; [reflexivity|]. split; [exact Hn|].
      destruct Hcases as [(_ & -> & ->)|(_ & ->)]; [by right|by left].
Qed.

(** *** Guarded operations and the creation layer *)

Lemma create_cached_log q access parent st :
  create_cached_compiled_object access parent (log q st)
  = (fst (create_cached_compiled_object access parent st),
     log q (snd (create_cached_compiled_object access parent st))).
Proof.
  unfold create_cached_compiled_object, infer_state_function_cache. simpl.
  by destruct (memoize_cache st !! _).
Qed.

Lemma create_from_log q accesses parent st :
  create_from accesses parent (log q st)
  = (fst (create_from accesses parent st),
     log q (snd (create_from accesses parent st))).
Proof.
  revert parent st. induction accesses as [|[name access] rest IH];
    intros parent st; simpl; [done|].
  rewrite create_cached_log.
  destruct (create_cached_compiled_object access parent st) as [o st1].
  simpl. apply IH.
Qed.

Lemma mapM_create_resolved accesses created st :
  Forall2 (fun access o => resolve (memoize_cache st) access None = Some o)
          accesses created ->
  mapM (fun access => lift (create_from_access_path access)) accesses st
  = (Ok created, st).
Proof.
  induction 1 as [|access o accesses created Hres _ IH]; simpl; [done|].
  unfold bind, lift at 1, create_from_access_path at 1.
  rewrite (create_from_resolved _ _ _ _ Hres). by rewrite IH.
Qed.

(** X8: [py__class__] raises [AttributeError], creating nothing, when the
    handle does not expose [__class__]; when it does, it returns the object of
    the class path of the handle, and a second call returns the same object
    and creates nothing more. *)
Theorem py__class__stable self st :
  let h := access_handle self in
  let probe := QGetattrPaths h "__class__" in
  (getattr_paths rt h "__class__" = None ->
   py__class__ rt an self st = (Raise AttributeError, log probe st)) /\
  (forall paths,
      getattr_paths rt h "__class__" = Some paths ->
      exists o st',
        py__class__ rt an self st = (Ok o, st') /\
        create_from_access_path (access_py__class__ an h) st' = (o, st') /\
        py__class__ rt an self st' = (Ok o, log probe st')).
Proof.
  simpl. split.
  - intros H.
    unfold py__class__, CheckAttribute, bind, ask_getattr_paths, force_unicode.
    simpl. by rewrite H.
  - intros paths H.
    unfold py__class__, CheckAttribute, bind, ask_getattr_paths, force_unicode,
      lift, create_from_access_path.
    simpl. rewrite H.
    set (path := access_py__class__ an (access_handle self)).
    set (probe := QGetattrPaths (access_handle self) "__class__").
    destruct (create_from path None (log probe st)) as [o st'] eqn:Ho.
    apply create_from_spec in Ho as (Hres & _ & _).
    exists o, st'. split; [done|].
    split; [by apply create_from_resolved|].
    by rewrite (create_from_resolved path None (log probe st') o).
Qed.

(** X9: when the handle exposes [__bases__], [py__bases__] returns one object
    per base access of the handle, in order, each the object its path leads
    to; a second call returns the same tuple and creates nothing more. *)
Theorem py__bases__stable self st paths :
  let h := access_handle self in
  let probe := QGetattrPaths h "__bases__" in
  getattr_paths rt h "__bases__" = Some paths ->
  exists created st',
    py__bases__ rt an self st = (Ok created, st') /\
    length created = length (access_py__bases__ an h) /\
    (forall i access,
        access_py__bases__ an h !! i = Some access ->
        exists o, created !! i = Some o /\
                  create_from_access_path access st' = (o, st')) /\
    py__bases__ rt an self st' = (Ok created, log probe st').
Proof.
  simpl. intros H.
  unfold py__bases__, CheckAttribute, bind, ask_getattr_paths, force_unicode.
  simpl. rewrite H.
  destruct (mapM_create (access_py__bases__ an (access_handle self))
              (log (QGetattrPaths (access_handle self) "__bases__") st))
    as (created & st' & -> & _ & Hall).
  exists created, st'. split; [done|].
  split; [symmetry; by eapply Forall2_length|].
  split.
  - intros i access Hi.
    destruct (Forall2_lookup_l _ _ _ _ _ Hall Hi) as (o & Ho & Hres).
    exists o. split; [done|]. by apply create_from_resolved.
  - by rewrite (mapM_create_resolved _ created
                  (log (QGetattrPaths (access_handle self) "__bases__") st')).
Qed.

Lemma create_chain_create_from path value st :
  create_chain (map snd path) value st = create_from path value st.
Proof.
  revert value st. induction path as [|[name access] path IH];
    intros value st; simpl; [done|].
  destruct (create_cached_compiled_object access value st) as [o st1].
  apply IH.
Qed.

(** X10: [_create_from_name] returns the object [create_from_access_path]
    makes from a path with the same handles, whatever object the name is
    looked up on; a later creation from such a path returns the same object
    and changes nothing. *)
Theorem create_from_name_as_path compiled_object name st path :
  let h := access_handle compiled_object in
  let asked := log (QIsClass h) (log (QGetattrPaths h name) st) in
  map snd path = access_getattr_default an h name ->
  _create_from_name rt an compiled_object name st
  = (Ok (fst (create_from_access_path path asked)),
     snd (create_from_access_path path asked)) /\
  create_from_access_path path
    (snd (_create_from_name rt an compiled_object name st))
  = (fst (create_from_access_path path asked),
     snd (_create_from_name rt an compiled_object name st)).
Proof.
  simpl. intros Hpath.
  unfold _create_from_name, bind, ask, lift, create_from_access_path.
  rewrite <- Hpath, create_chain_create_from.
  set (asked := log (QIsClass _) _).
  destruct (create_from path None asked) as [o st'] eqn:Ho. simpl.
  split; [done|]. apply create_from_spec in Ho as (Hres & _ & _).
  by apply create_from_resolved.
Qed.

End ObjectFacts.

(** ** The shape of created objects *)

Section CreationMore.

Import Compiled.

(** X11: the object created from a path that ends in an access carries the
    handle of that access, and its parent is the object created from the path
    without it ([None] when nothing is left of the path). *)
Theorem created_object_shape st p name access :
  cache_sound st ->
  exists o,
    fst (create_from_access_path (p ++ [(name, access)]) st) = Some o /\
    access_handle o = access /\
    parent_value o = obj_id <$> fst (create_from_access_path p st).
Proof.
  intros Hsound. unfold create_from_access_path. rewrite create_from_snoc.
  simpl. eexists. split; [reflexivity|].
  apply create_cached_sound. by apply create_from_sound.
Qed.

Lemma created_object_shape_witness :
  exists o,
    fst (create_from_access_path
           ([("builtins"%string, 0); ("int"%string, 1)]
            ++ [("real"%string, 9)])
           (new_infer_state false 0))
    = Some o /\
    access_handle o = 9 /\
    parent_value o
    = obj_id <$> fst (create_from_access_path
                        [("builtins"%string, 0); ("int"%string, 1)]
                        (new_infer_state false 0)).
Proof.
  apply (created_object_shape (new_infer_state false 0)).
  apply cache_sound_new.
Defined.

Lemma create_cached_grows access parent st :
  let st' := snd (create_cached_compiled_object access parent st) in
  next_id st <= next_id st' <= S (next_id st) /\
  doc_memo st' = doc_memo st /\
  allow_descriptor_getattr st' = allow_descriptor_getattr st /\
  builtins_module st' = builtins_module st /\
  queries st' = queries st.
Proof.
  unfold create_cached_compiled_object, infer_state_function_cache.
  destruct (memoize_cache st !! _); simpl; repeat split; lia.
Qed.

(** X12: a creation from a path only adds to the cache: no entry is removed
    or changed, at most one object is made per access of the path, and the
    memoised docs, the settings and the history of queries are left as they
    were. *)
Theorem create_only_grows (p : AccessPath) st :
  let st' := snd (create_from_access_path p st) in
  memoize_cache st ⊆ memoize_cache st' /\
  next_id st <= next_id st' <= next_id st + length p /\
  doc_memo st' = doc_memo st /\
  allow_descriptor_getattr st' = allow_descriptor_getattr st /\
  builtins_module st' = builtins_module st /\
  queries st' = queries st.
Proof.
  unfold create_from_access_path. generalize (@None CompiledObject) as parent.
  revert st. induction p as [|[name access] rest IH]; intros st parent; simpl.
  - repeat split; [done|lia|lia].
  - pose proof (create_cached_grows access parent st) as Hone.
    destruct (create_cached_compiled_object access parent st) as [o st1]
      eqn:Ho.
    simpl in Hone. apply create_cached_spec in Ho as (_ & Hsub & _).
    destruct (IH st1 (Some o)) as (Hsub' & Hid & -> & -> & -> & ->).
    destruct Hone as (Hid1 & -> & -> & -> & ->).
    split; [by etrans|]. repeat split; lia.
Qed.

End CreationMore.

(** ** The filter: lookups and listings *)

Section FilterMore.

Import Compiled.

Variable rt : Runtime.
Variable eng : Engine.

(** X13: a list that [get] returns holds at most one name, and that name is
    made for the string that was asked for: it is the empty name of that
    string, or the name of that string on the object of the filter. *)
Theorem get_at_most_one self name st names :
  fst (get rt self name st) = Ok names ->
  length names <= 1 /\
  Forall (fun n => n = EmptyCompiledName name \/
                   n = CompiledName (compiled_object self) name)
         names.
Proof.
  unfold get, _get, bind, ask, force_unicode, _get_cached_name.
  destruct (is_allowed_getattr rt _ name) as [has_attribute is_descriptor].
  simpl. destruct has_attribute; simpl;
    [|by intros [= <-]; split; [simpl; lia|constructor]].
  destruct (is_descriptor && _); simpl.
  - intros [= <-]. split; [done|]. constructor; [by left|constructor].
  - destruct (is_instance self); simpl.
    + destruct (str_in name _); simpl; intros [= <-];
        (split; [simpl; lia|]); [constructor; [by right|]|]; constructor.
    + intros [= <-]. split; [done|]. constructor; [by right|constructor].
Qed.

Lemma concat_singletons {A B} (f : A -> B) (l : list A) :
  concat (map (fun x => [f x]) l) = map f l.
Proof. induction l as [|x l IH]; [done|]. simpl. by rewrite IH. Qed.

(** The name the first loop of [values] makes for one entry of the
    directory. *)
Lemma dir_names_explicit self (dir_infos : gmap string (bool * bool)) st :
  dir_names self dir_infos st
  = (Ok (map (fun kv : string * (bool * bool) =>
                _get_cached_name self kv.1
                  ((kv.2.2 && negb (allow_descriptor_getattr st))
                   || negb kv.2.1))
             (map_to_list dir_infos)),
     st).
Proof.
  unfold dir_names.
  set (keys := map fst (map_to_list dir_infos)).
  set (name_of := fun kv : string * (bool * bool) =>
                    _get_cached_name self kv.1
                      ((kv.2.2 && negb (allow_descriptor_getattr st))
                       || negb kv.2.1)).
  assert (Hloop : forall l,
    (forall kv, kv ∈ l -> dir_infos !! kv.1 = Some kv.2 /\ kv.1 ∈ keys) ->
    mapM (fun name =>
            _get self name
                 (match dir_infos !! name with
                  | Some info => ret info
                  | None => raise KeyError
                  end)
                 (ret keys) false) (map fst l) st
    = (Ok (map (fun kv => [name_of kv]) l), st)).
  { induction l as [|kv l IH]; intros Hl; [done|].
    destruct (Hl kv) as [Hkv Hin]; [by left|].
    simpl. unfold bind at 1.
    assert (Hget : _get self kv.1
                     (match dir_infos !! kv.1 with
                      | Some info => ret info
                      | None => raise KeyError
                      end)
                     (ret keys) false st
                   = (Ok [name_of kv], st)).
    { unfold _get, bind, ret, force_unicode, name_of. rewrite Hkv. simpl.
      apply str_in_spec in Hin.
      destruct (_ || _); [done|]. unfold _get_cached_name.
      destruct (is_instance self); simpl; [by rewrite Hin|done]. }
    rewrite Hget. unfold bind at 1. rewrite IH; [done|].
    intros kv' Hkv'. apply Hl. by right. }
  unfold bind. subst keys. rewrite Hloop.
  - unfold ret. by rewrite concat_singletons.
  - intros [k info] Hin. split; [by apply elem_of_map_to_list|].
    apply list_elem_of_fmap. by exists (k, info).
Qed.

(** X14: a name of the directory that the handle allows is looked up and
    listed alike: when [get_dir_infos], [is_allowed_getattr] and [dir] agree
    on it, [get] returns exactly one name, and it is one of the names
    [values] makes from the directory. *)
Theorem get_agrees_with_values self name info st :
  let h := access_handle (compiled_object self) in
  let dir_infos := snd (get_dir_infos rt h) in
  dir_infos !! name = Some info ->
  is_allowed_getattr rt h name = info ->
  name ∈ dir rt h ->
  fst info = true ->
  exists n,
    fst (get rt self name st) = Ok [n] /\
    string_name n = name /\
    forall st', exists own,
      fst (dir_names self dir_infos st') = Ok own /\
      (allow_descriptor_getattr st' = allow_descriptor_getattr st -> n ∈ own).
Proof.
  simpl. intros Hinfo Hallowed Hdir Hhas.
  set (n := _get_cached_name self name
              ((info.2 && negb (allow_descriptor_getattr st)) || negb info.1)).
  exists n. split; [|split].
  - unfold get, _get, bind, ask, force_unicode. rewrite Hallowed.
    destruct info as [has is_descriptor]. simpl in *. subst has. simpl.
    unfold n. simpl. rewrite !orb_false_r.
    destruct (is_descriptor && _); [done|]. unfold _get_cached_name.
    destruct (is_instance self); simpl; [|done].
    apply str_in_spec in Hdir. by rewrite Hdir.
  - unfold n, _get_cached_name. by destruct (_ || _).
  - intros st'. rewrite dir_names_explicit. eexists. split; [reflexivity|].
    intros Hallow. apply list_elem_of_fmap. exists (name, info).
    split; [by rewrite Hallow|]. by apply elem_of_map_to_list.
Qed.

(** X15: the first loop of [values] never raises and leaves the inference
    state as it is; it makes exactly one name for every key of the directory,
    carrying that key, also for a key whose attribute is missing; and the
    restriction to the directory of an instance never removes one: the
    instance view and the other view of an object list the same names. *)
Theorem dir_names_one_per_key (o : CompiledObject) (view : bool)
    (dir_infos : gmap string (bool * bool)) st :
  let instance_view := {| compiled_object := o; is_instance := view |} in
  let other_view := {| compiled_object := o; is_instance := negb view |} in
  exists names,
    (dir_names instance_view dir_infos st = (Ok names, st)) /\
    (map string_name names = map fst (map_to_list dir_infos)) /\
    (dir_names other_view dir_infos st = (Ok names, st)).
Proof.
  simpl. rewrite !dir_names_explicit. eexists.
  split; [reflexivity|]. split.
  - rewrite map_map. apply map_ext. intros [k info].
    unfold _get_cached_name. by destruct (_ || _).
  - reflexivity.
Qed.

End FilterMore.

(** ** Lazy values: merges and snapshots *)

Section LazyMore.

Import Lazy.

Variable infer_node : Context -> Node -> M Heap ValueSet.

Lemma mapM_app {St A B} (f : A -> M St B) (xs ys : list A) (s : St) :
  mapM f (xs ++ ys) s
  = bind (mapM f xs) (fun a => bind (mapM f ys) (fun b => ret (a ++ b))) s.
Proof.
  revert s. induction xs as [|x xs IH]; intros s; simpl.
  - unfold bind, ret. destruct (mapM f ys s) as [[b|e] s']; reflexivity.
  - unfold bind, ret in *. destruct (f x s) as [[y|e] s1]; [|reflexivity].
    rewrite IH.
    destruct (mapM f xs s1) as [[a|e] s2]; [|reflexivity].
    destruct (mapM f ys s2) as [[b|e] s3]; reflexivity.
Qed.

Lemma from_sets_app (xs ys : list ValueSet) :
  from_sets (xs ++ ys) = from_sets xs ∪ from_sets ys.
Proof.
  unfold from_sets. induction xs as [|x xs IH]; simpl.
  - by rewrite (left_id_L ∅ (∪)).
  - by rewrite IH, (assoc_L (∪)).
Qed.

Lemma from_sets_singletons (vs : list Value) :
  from_sets (map (fun v => {[ v ]}) vs) = list_to_set vs.
Proof.
  unfold from_sets. induction vs as [|v vs IH]; [done|]. simpl.
  by rewrite IH.
Qed.

(** X16: [get_merged_lazy_value] raises [IndexError] on the empty list, and
    on any other list returns a lazy value that infers what the merge of the
    list infers: leaving out the wrapper for a single lazy value changes
    nothing. *)
Theorem get_merged_lazy_value_infer (lazy_values : list LazyValue) :
  (lazy_values = [] ->
   get_merged_lazy_value lazy_values = Raise IndexError) /\
  (lazy_values <> [] ->
   exists l,
     get_merged_lazy_value lazy_values = Ok l /\
     forall h,
       infer infer_node l h
       = infer infer_node (MergedLazyValues lazy_values) h).
Proof.
  split; [by intros ->|]. intros Hne.
  destruct lazy_values as [|a [|b rest]]; [done| |].
  - exists a. split; [done|]. intros h. rewrite infer_merged. simpl.
    unfold bind, ret. destruct (infer infer_node a h) as [[s|e] h1]; [|done].
    unfold from_sets. simpl. by rewrite (right_id_L ∅ (∪)).
  - by eexists.
Qed.

(** X17: a merge inside a merge infers what the flat merge infers, from every
    heap and with the same effect on the heap. *)
Theorem merged_flatten (xs ys : list LazyValue) h :
  infer infer_node (MergedLazyValues (MergedLazyValues xs :: ys)) h
  = infer infer_node (MergedLazyValues (xs ++ ys)) h.
Proof.
  rewrite (infer_merged _ (MergedLazyValues xs :: ys)).
  rewrite (infer_merged _ (xs ++ ys)). cbn [mapM]. rewrite infer_merged.
  pose proof (mapM_app (infer infer_node) xs ys h) as Happ.
  unfold bind, ret in *. rewrite Happ.
  destruct (mapM (infer infer_node) xs h) as [[a|e] h1]; [|reflexivity].
  destruct (mapM (infer infer_node) ys h1) as [[b|e] h2]; [|reflexivity].
  do 2 f_equal. by rewrite from_sets_app.
Qed.

(** X18: the merge of known values infers the set of these values, as the
    lazy value of that set does, and leaves the heap as it was. *)
Theorem merged_known_values (vs : list Value) h :
  infer infer_node (MergedLazyValues (map LazyKnownValue vs)) h
  = (Ok (list_to_set vs), h) /\
  infer infer_node (LazyKnownValues (list_to_set vs)) h
  = (Ok (list_to_set vs), h).
Proof.
  split; [|done]. rewrite infer_merged. unfold bind, ret.
  assert (Hall : mapM (infer infer_node) (map LazyKnownValue vs) h
                 = (Ok (map (fun v => {[ v ]}) vs), h)).
  { induction vs as [|v vs IH]; [done|]. simpl. unfold bind, ret.
    rewrite IH. by rewrite (right_id_L ∅ (∪)). }
  rewrite Hall. by rewrite from_sets_singletons.
Qed.

(** X19: the table a tree lazy value infers with is the copy made when it was
    constructed: an entry set afterwards in the table of the context shows in
    that table and not in the one the node-level inference runs with. *)
Theorem snapshot_isolated value node h k v :
  predefined_names h value < next_loc h ->
  let made := new_LazyTreeValue value node h in
  let table := predefined_names h value in
  let h2 := snd (dict_setitem table k v (snd made)) in
  exists snapshot,
    fst made = Ok (LazyTreeValue value node snapshot) /\
    dict_contents h2 (predefined_names h2 value)
    = <[k := v]> (dict_contents h table) /\
    let h3 := snd (setattr_predefined_names value snapshot h2) in
    fst (infer infer_node (LazyTreeValue value node snapshot) h2)
    = fst (infer_node value node h3) /\
    dict_contents h3 (predefined_names h3 value) = dict_contents h table.
Proof.
  intros Hlt. simpl. exists (next_loc h). split; [done|].
  split; [repeat case_decide; done || lia|].
  split.
  - unfold monkeypatch, try_finally, bind, getattr_predefined_names. simpl.
    by destruct (infer_node value node _) as [r h'].
  - repeat case_decide; done || lia.
Qed.

End LazyMore.

Lemma snapshot_isolated_witness :
  let h := {| Lazy.predefined_names := fun _ => 3;
              Lazy.dict_contents := fun _ => ∅;
              Lazy.next_loc := 10 |} in
  let infer_node := fun (_ : Lazy.Context) (_ : Lazy.Node) =>
    (ret ∅ : M Lazy.Heap ValueSet) in
  let made := Lazy.new_LazyTreeValue 0 1 h in
  let h2 := snd (dict_setitem 3 7 ∅ (snd made)) in
  exists snapshot,
    fst made = Ok (Lazy.LazyTreeValue 0 1 snapshot) /\
    Lazy.dict_contents h2 (Lazy.predefined_names h2 0)
    = <[7 := ∅]> (Lazy.dict_contents h 3) /\
    let h3 := snd (Lazy.setattr_predefined_names 0 snapshot h2) in
    fst (Lazy.infer infer_node (Lazy.LazyTreeValue 0 1 snapshot) h2)
    = fst (infer_node 0 1 h3) /\
    Lazy.dict_contents h3 (Lazy.predefined_names h3 0)
    = Lazy.dict_contents h 3.
Proof.
  intros h infer_node.
  apply (snapshot_isolated infer_node 0 1 h 7 ∅). simpl. lia.
Defined.

Lemma get_merged_lazy_value_infer_witness :
  let h := {| Lazy.predefined_names := fun _ => 3;
              Lazy.dict_contents := fun _ => ∅;
              Lazy.next_loc := 10 |} in
  let infer_node := fun (_ : Lazy.Context) (n : Lazy.Node) =>
    (ret {[ VOther n ]} : M Lazy.Heap ValueSet) in
  Lazy.get_merged_lazy_value [] = Raise IndexError /\
  exists l,
    Lazy.get_merged_lazy_value [Lazy.LazyTreeValue 0 1 2] = Ok l /\
    Lazy.infer infer_node l h
    = Lazy.infer infer_node
        (Lazy.MergedLazyValues [Lazy.LazyTreeValue 0 1 2]) h.
Proof.
  intros h infer_node. split.
  - by apply (get_merged_lazy_value_infer infer_node []).
  - destruct (get_merged_lazy_value_infer infer_node
                [Lazy.LazyTreeValue 0 1 2]) as [_ Hsome].
    destruct Hsome as (l & Hl & Hinfer); [done|]. exists l. auto.
Defined.

(** A node-level inference that rebinds the table of its context and puts the
    binding back keeps every binding, and so does a merge of tree values over
    it. *)
Lemma infer_preserves_bindings_witness :
  let h := {| Lazy.predefined_names := fun _ => 3;
              Lazy.dict_contents := fun _ => ∅;
              Lazy.next_loc := 10 |} in
  let infer_node := fun (c : Lazy.Context) (_ : Lazy.Node) =>
    Lazy.monkeypatch c 9 (ret ∅ : M Lazy.Heap ValueSet) in
  let l := Lazy.MergedLazyValues
             [Lazy.LazyTreeValue 0 1 5; Lazy.LazyTreeValue 1 2 6] in
  Lazy.predefined_names (snd (Lazy.infer infer_node l h)) 0
  = Lazy.predefined_names h 0.
Proof.
  intros h infer_node l. apply (infer_preserves_bindings infer_node).
  intros c n h' c'. simpl. repeat case_decide; congruence.
Defined.

(** ** Calls: the other branches *)

Section CallMore.

Import Compiled.

Variable rt : Runtime.
Variable eng : Engine.

Lemma concat_singletons_nil {A B} (l : list A) :
  concat (map (fun _ => @nil B) l) = [].
Proof. induction l as [|x l IH]; [done|]. simpl. by rewrite IH. Qed.

(** Without annotation, with [__call__] and for an object that is not a
    class, the call is the value set of what [_execute_function] yields. *)
Lemma py__call__runs_function self arguments st paths :
  let h := access_handle self in
  get_return_annotation rt h = None ->
  getattr_paths rt h "__call__" = Some paths ->
  is_class rt h = false ->
  py__call__ rt eng self arguments st
  = bind (_execute_function rt eng self arguments)
         (fun yielded => ret (list_to_set yielded))
         (log_all [QGetReturnAnnotation h; QGetattrPaths h "__call__";
                   QIsClass h] st).
Proof.
  simpl. intros Hann Hcall Hcls.
  unfold py__call__, bind at 1, ask at 1. rewrite Hann.
  unfold try_except_AttributeError, ask_getattr_paths. rewrite Hcall.
  unfold bind at 1, ask at 1. by rewrite Hcls.
Qed.

(** X21: without a return annotation, an object that exposes no [__call__]
    is called as the base class calls it, and a class is called to exactly
    one instance of it, bound to the arguments and to the parent of the
    class; in neither case is the doc asked for or parsed. *)
Theorem py__call__other_branches self arguments st :
  let h := access_handle self in
  get_return_annotation rt h = None ->
  (getattr_paths rt h "__call__" = None ->
   py__call__ rt eng self arguments st
   = Value_py__call__ eng self arguments
       (log_all [QGetReturnAnnotation h; QGetattrPaths h "__call__"] st)) /\
  (forall paths,
      getattr_paths rt h "__call__" = Some paths ->
      is_class rt h = true ->
      py__call__ rt eng self arguments st
      = (Ok {[ VCompiledInstance (parent_value self) self arguments ]},
         log_all [QGetReturnAnnotation h; QGetattrPaths h "__call__";
                  QIsClass h] st)).
Proof.
  simpl. intros Hann. split.
  - intros Hcall. unfold py__call__, bind at 1, ask at 1. rewrite Hann.
    unfold try_except_AttributeError, ask_getattr_paths. by rewrite Hcall.
  - intros paths Hcall Hcls. unfold py__call__, bind at 1, ask at 1.
    rewrite Hann. unfold try_except_AttributeError, ask_getattr_paths.
    rewrite Hcall. unfold bind at 1, ask at 1. rewrite Hcls.
    unfold ret. simpl. by rewrite (right_id_L ∅ (∪)).
Qed.

Lemma execute_builtin_misses params (names : list string) st :
  (forall name, name ∈ names ->
                getattr_paths rt (builtins_module st) name = None) ->
  mapM (execute_builtin rt eng params) names st
  = (Ok (map (fun _ => []) names),
     log_all (map (QGetattrPaths (builtins_module st)) names) st).
Proof.
  revert st. induction names as [|name rest IH]; intros st Hmiss; [done|].
  simpl. unfold bind at 1.
  unfold execute_builtin at 1, try_except_AttributeError, ask_getattr_paths.
  rewrite (Hmiss name) by (by left). unfold ret at 1.
  unfold bind at 1.
  rewrite (IH (log (QGetattrPaths (builtins_module st) name) st)).
  - done.
  - intros n Hn. simpl. apply Hmiss. by right.
Qed.

(** X22: when no word of the return string of the parsed doc is an attribute
    of the built-in module, the call of a function returns what the doc-based
    inferencer contributes and nothing else: every word is looked up, and no
    built-in is fetched or executed. *)
Theorem py__call__without_builtin_words self arguments st paths params ret_
    st1 :
  let h := access_handle self in
  let asked :=
    log_all [QGetReturnAnnotation h; QGetattrPaths h "__call__"; QIsClass h;
             QGetApiType h] st in
  get_return_annotation rt h = None ->
  getattr_paths rt h "__call__" = Some paths ->
  is_class rt h = false ->
  get_api_type rt h = "function"%string ->
  _parse_function_doc rt self asked = (Ok (params, ret_), st1) ->
  (forall word, word ∈ tokens ret_ ->
                getattr_paths rt (builtins_module st1) word = None) ->
  py__call__ rt eng self arguments st
  = infer_return_types eng self
      (log_all (map (QGetattrPaths (builtins_module st1)) (tokens ret_)) st1).
Proof.
  simpl. intros Hann Hcall Hcls Hapi Hparsed Hmiss.
  rewrite (py__call__runs_function self arguments st paths Hann Hcall Hcls).
  unfold _execute_function, bind, ask. rewrite Hapi. simpl.
  unfold log_all in Hparsed. simpl in Hparsed.
  rewrite Hparsed. simpl.
  rewrite (execute_builtin_misses arguments (tokens ret_) st1 Hmiss).
  destruct (infer_return_types eng self _) as [[types|e] st2]; [|done].
  rewrite concat_singletons_nil. unfold ret. simpl.
  by rewrite list_to_set_elements_L.
Qed.

End CallMore.

(** ** The properties at the objects of the second runtime *)

Lemma string_names_join_witness :
  Object.string_names Sample2.an (Sample.self_of 0) <> [] /\
  String.concat "." (Object.string_names Sample2.an (Sample.self_of 0))
  = "os.path"%string /\
  Forall (fun part => "."%char ∉ list_ascii_of_string part)
         (Object.string_names Sample2.an (Sample.self_of 0)).
Proof.
  apply (string_names_join Sample2.an (Sample.self_of 0) "os.path").
  reflexivity.
Defined.

Lemma get_param_names_cases_witness :
  Object.get_param_names Sample2.rt Sample2.an (Sample.self_of 6)
                         (Sample.st_of 6)
  = (Ok [Object.SignatureParamName (Some 0) Sample2.param_x],
     Sample.st_of 6) /\
  exists fields names,
    fst (Object.get_param_names Sample2.rt Sample2.an (Sample.self_of 8)
                                (Sample.st_of 8))
    = Ok (Object.UnresolvableParamName (Some 0) "self" "" :: names) /\
    Doc.join [","%char] fields = list_ascii_of_string "a,b=None" /\
    Forall2 (fun field param_name =>
               exists n d,
                 param_name
                 = Object.UnresolvableParamName (Some 0)
                     (string_of_list_ascii n) (string_of_list_ascii d) /\
                 ("="%char ∉ n) /\
                 (Doc.strip field = (n ++ "="%char :: d)%list \/
                  (Doc.strip field = n /\ d = [])))
            fields names.
Proof.
  split.
  - apply (proj1 (get_param_names_cases Sample2.rt Sample2.an
                    (Sample.self_of 6) (Sample.st_of 6))
                 [Sample2.param_x]).
    reflexivity.
  - destruct (Compiled._parse_function_doc Sample2.rt (Sample.self_of 8)
                (Sample.st_of 8)) as [parsed st'] eqn:Hparsed.
    assert (Hfst : parsed = Ok ("a,b=None", "str")%string).
    { change parsed with (fst (parsed, st')). rewrite <- Hparsed.
      vm_compute. reflexivity. }
    subst parsed.
    destruct (proj2 (get_param_names_cases Sample2.rt Sample2.an
                       (Sample.self_of 8) (Sample.st_of 8))
                    eq_refl _ _ _ Hparsed)
      as (fields & names & Hnames & _ & Hjoin & _ & Hall).
    exists fields, names. rewrite Hnames. split; [reflexivity|].
    split; [|exact Hall]. by apply Hjoin.
Defined.

Lemma py__class__stable_witness :
  let module := {| obj_id := 0; access_handle := 0; parent_value := None |} in
  Object.py__class__ Sample2.rt Sample2.an module (Sample.st_of 5)
  = (Raise AttributeError,
     Compiled.log (Compiled.QGetattrPaths 0 "__class__") (Sample.st_of 5)) /\
  exists o st',
    Object.py__class__ Sample2.rt Sample2.an (Sample.self_of 5)
                       (Sample.st_of 5)
    = (Ok o, st') /\
    Compiled.create_from_access_path (Sample.builtin_path "type" 3) st'
    = (o, st') /\
    Object.py__class__ Sample2.rt Sample2.an (Sample.self_of 5) st'
    = (Ok o, Compiled.log (Compiled.QGetattrPaths 5 "__class__") st').
Proof.
  split.
  - apply (proj1 (py__class__stable Sample2.rt Sample2.an
                    {| obj_id := 0; access_handle := 0;
                       parent_value := None |} (Sample.st_of 5))).
    reflexivity.
  - apply (proj2 (py__class__stable Sample2.rt Sample2.an
                    (Sample.self_of 5) (Sample.st_of 5)) []).
    reflexivity.
Defined.

Lemma py__bases__stable_witness :
  exists created st',
    Object.py__bases__ Sample2.rt Sample2.an (Sample.self_of 1)
                       (Sample.st_of 1)
    = (Ok created, st') /\
    length created = 1 /\
    (forall i access,
        [Sample.builtin_path "object" 7] !! i = Some access ->
        exists o, created !! i = Some o /\
                  Compiled.create_from_access_path access st' = (o, st')) /\
    Object.py__bases__ Sample2.rt Sample2.an (Sample.self_of 1) st'
    = (Ok created,
       Compiled.log (Compiled.QGetattrPaths 1 "__bases__") st').
Proof.
  apply (py__bases__stable Sample2.rt Sample2.an (Sample.self_of 1)
           (Sample.st_of 1) []).
  reflexivity.
Defined.

Lemma create_from_name_as_path_witness :
  let asked :=
    Compiled.log (Compiled.QIsClass 5)
      (Compiled.log (Compiled.QGetattrPaths 5 "real") (Sample.st_of 5)) in
  let path := Sample.builtin_path "str" 2 in
  let made :=
    Object._create_from_name Sample2.rt Sample2.an (Sample.self_of 5) "real"
                             (Sample.st_of 5) in
  made = (Ok (fst (Compiled.create_from_access_path path asked)),
          snd (Compiled.create_from_access_path path asked)) /\
  Compiled.create_from_access_path path (snd made)
  = (fst (Compiled.create_from_access_path path asked), snd made).
Proof.
  apply (create_from_name_as_path Sample2.rt Sample2.an (Sample.self_of 5)
           "real" (Sample.st_of 5) (Sample.builtin_path "str" 2)).
  reflexivity.
Defined.

Lemma get_agrees_with_values_witness :
  let self :=
    {| Compiled.compiled_object := Sample.self_of 1;
       Compiled.is_instance := true |} in
  exists n,
    fst (Compiled.get Sample.rt self "__doc__" (Sample.st_of 1)) = Ok [n] /\
    Compiled.string_name n = "__doc__"%string /\
    forall st', exists own,
      fst (Compiled.dir_names self
             (snd (Compiled.get_dir_infos Sample.rt 1)) st')
      = Ok own /\
      (Compiled.allow_descriptor_getattr st'
       = Compiled.allow_descriptor_getattr (Sample.st_of 1) -> n ∈ own).
Proof.
  apply (get_agrees_with_values Sample.rt
           {| Compiled.compiled_object := Sample.self_of 1;
              Compiled.is_instance := true |}
           "__doc__" (true, false) (Sample.st_of 1)).
  - vm_compute. reflexivity.
  - reflexivity.
  - simpl. set_solver.
  - reflexivity.
Defined.

Lemma py__call__other_branches_witness :
  let module := {| obj_id := 0; access_handle := 0; parent_value := None |} in
  Compiled.py__call__ Sample.rt Sample.eng module 0 Sample.st0
  = Compiled.Value_py__call__ Sample.eng module 0
      (log_all [Compiled.QGetReturnAnnotation 0;
                Compiled.QGetattrPaths 0 "__call__"] Sample.st0) /\
  Compiled.py__call__ Sample.rt Sample.eng (Sample.self_of 1) 0
                      (Sample.st_of 1)
  = (Ok {[ VCompiledInstance (Some 0) (Sample.self_of 1) 0 ]},
     log_all [Compiled.QGetReturnAnnotation 1;
              Compiled.QGetattrPaths 1 "__call__"; Compiled.QIsClass 1]
             (Sample.st_of 1)).
Proof.
  split.
  - apply (proj1 (py__call__other_branches Sample.rt Sample.eng
                    {| obj_id := 0; access_handle := 0;
                       parent_value := None |} 0 Sample.st0 eq_refl)).
    reflexivity.
  - apply (proj2 (py__call__other_branches Sample.rt Sample.eng
                    (Sample.self_of 1) 0 (Sample.st_of 1) eq_refl) []).
    + reflexivity.
    + reflexivity.
Defined.

Lemma py__call__without_builtin_words_witness :
  let asked :=
    log_all [Compiled.QGetReturnAnnotation 9;
             Compiled.QGetattrPaths 9 "__call__"; Compiled.QIsClass 9;
             Compiled.QGetApiType 9] (Sample.st_of 9) in
  let st1 :=
    snd (Compiled._parse_function_doc Sample2.rt (Sample.self_of 9) asked) in
  Compiled.py__call__ Sample2.rt Sample.eng (Sample.self_of 9) 0
                      (Sample.st_of 9)
  = Compiled.infer_return_types Sample.eng (Sample.self_of 9)
      (log_all (map (Compiled.QGetattrPaths 0) ["widget"; "of"; "gears"]%string)
               st1).
Proof.
  intros asked st1.
  destruct (Compiled._parse_function_doc Sample2.rt (Sample.self_of 9) asked)
    as [parsed st'] eqn:Hparsed.
  assert (Hfst : parsed = Ok (""%string, "widget of gears"%string)).
  { change parsed with (fst (parsed, st')). rewrite <- Hparsed.
    vm_compute. reflexivity. }
  assert (Hmodule : Compiled.builtins_module st' = 0).
  { change st' with (snd (parsed, st')). rewrite <- Hparsed.
    vm_compute. reflexivity. }
  subst parsed. subst st1. simpl.
  rewrite (py__call__without_builtin_words Sample2.rt Sample.eng
             (Sample.self_of 9) 0 (Sample.st_of 9) [] _ _ st'
             eq_refl eq_refl eq_refl eq_refl Hparsed).
  - rewrite Hmodule. reflexivity.
  - rewrite Hmodule. intros word Hword.
    change (Compiled.tokens "widget of gears")
      with ["widget"; "of"; "gears"]%string in Hword.
    apply elem_of_cons in Hword as [->|Hword]; [reflexivity|].
    apply elem_of_cons in Hword as [->|Hword]; [reflexivity|].
    apply elem_of_cons in Hword as [->|Hword]; [reflexivity|].
    by apply elem_of_nil in Hword.
Defined.

Lemma get_at_most_one_witness :
  let self :=
    {| Compiled.compiled_object := Sample.self_of 1;
       Compiled.is_instance := true |} in
  let names := [Compiled.CompiledName (Sample.self_of 1) "__doc__"] in
  fst (Compiled.get Sample.rt self "__doc__" (Sample.st_of 1)) = Ok names /\
  length names <= 1 /\
  Forall (fun n => n = Compiled.EmptyCompiledName "__doc__" \/
                   n = Compiled.CompiledName (Sample.self_of 1) "__doc__")
         names.
Proof.
  assert (Hget : fst (Compiled.get Sample.rt
                        {| Compiled.compiled_object := Sample.self_of 1;
                           Compiled.is_instance := true |}
                        "__doc__" (Sample.st_of 1))
                 = Ok [Compiled.CompiledName (Sample.self_of 1) "__doc__"]).
  { vm_compute. reflexivity. }
  split; [exact Hget|].
  exact (get_at_most_one Sample.rt _ _ _ _ Hget).
Defined.
